(** * SuperScanner: indicator engine, signal evaluator and scan of [app.py]

    A shallow embedding of [calculate_indicators], [analyze_stock] and
    [run_scan], and the properties of the design document checked on it.

    Numbers.  The program computes with binary64 floats inside pandas
    series and plain Python floats.  The embedding keeps the three kinds
    of float values the program distinguishes (a finite value, an infinity,
    NaN) and computes finite values exactly, as rationals: rounding error
    of the arithmetic is abstracted away, the special values and the
    places where Python raises [ZeroDivisionError] are not.  Zero carries
    no sign; the one place where the sign of a zero divisor would matter
    (the sign of an infinite [rs]) is noted at [rs]. *)

From Stdlib Require Import String ZArith Lia Bool Arith PeanoNat List.
From Stdlib Require Import QArith Qround Qreduction Lqa.
From Stdlib Require Import Sorting.Sorted Sorting.Permutation.
From Stdlib Require Import Setoid Morphisms.
Import ListNotations.

Local Open Scope Q_scope.

(** ** Float values *)

Module Num.

(** A float: NaN, an infinity ([Inf true] is the negative one) or a finite
    value. *)
Inductive num : Type :=
| NaN
| Inf (neg : bool)
| Fin (q : Q).

Definition Qltb (a b : Q) : bool :=
  match a ?= b with Lt => true | _ => false end.

Definition Qzero (a : Q) : bool := Qeq_bool a 0.

Definition Qneg (a : Q) : bool := Qltb a 0.

(** Finite results are stored in lowest terms. *)
Definition fin (q : Q) : num := Fin (Qred q).

Definition nopp (x : num) : num :=
  match x with
  | NaN => NaN
  | Inf s => Inf (negb s)
  | Fin a => fin (- a)
  end.

Definition nadd (x y : num) : num :=
  match x, y with
  | NaN, _ | _, NaN => NaN
  | Inf s, Inf s' => if Bool.eqb s s' then Inf s else NaN
  | Inf s, Fin _ | Fin _, Inf s => Inf s
  | Fin a, Fin b => fin (a + b)
  end.

Definition nsub (x y : num) : num :=
  match x, y with
  | NaN, _ | _, NaN => NaN
  | Inf s, Inf s' => if Bool.eqb s s' then NaN else Inf s
  | Inf s, Fin _ => Inf s
  | Fin _, Inf s => Inf (negb s)
  | Fin a, Fin b => fin (a - b)
  end.

Definition nmul (x y : num) : num :=
  match x, y with
  | NaN, _ | _, NaN => NaN
  | Inf s, Inf s' => Inf (xorb s s')
  | Inf s, Fin a | Fin a, Inf s =>
      if Qzero a then NaN else Inf (xorb s (Qneg a))
  | Fin a, Fin b => fin (a * b)
  end.

(** Division of float arrays (numpy): a zero divisor gives an infinity, or
    NaN for [0/0]; nothing is raised. *)
Definition ndiv (x y : num) : num :=
  match x, y with
  | NaN, _ | _, NaN => NaN
  | Inf _, Inf _ => NaN
  | Inf s, Fin b => Inf (xorb s (Qneg b))
  | Fin _, Inf _ => Fin 0
  | Fin a, Fin b =>
      if Qzero b then (if Qzero a then NaN else Inf (Qneg a))
      else fin (a / b)
  end.

(** [x < y] on floats: false as soon as one side is NaN. *)
Definition nlt (x y : num) : bool :=
  match x, y with
  | NaN, _ | _, NaN => false
  | Inf s, Inf s' => s && negb s'
  | Inf s, Fin _ => s
  | Fin _, Inf s => negb s
  | Fin a, Fin b => Qltb a b
  end.

Definition ngt (x y : num) : bool := nlt y x.

(** [x <= y] on floats. *)
Definition nle (x y : num) : bool :=
  match x, y with
  | NaN, _ | _, NaN => false
  | Inf s, Inf s' => s || negb s'
  | Inf s, Fin _ => s
  | Fin _, Inf s => negb s
  | Fin a, Fin b => negb (Qltb b a)
  end.

(** Round half to even, to an integer. *)
Definition round_half_even (q : Q) : Z :=
  let f := Qfloor q in
  match (q - inject_Z f ?= 1 # 2)%Q with
  | Lt => f
  | Gt => (f + 1)%Z
  | Eq => if Z.even f then f else (f + 1)%Z
  end.

(** Python's [round(x, ndigits)] on a float: the result is a float; NaN
    and the infinities are returned as they are. *)
Definition round (x : num) (ndigits : nat) : num :=
  match x with
  | Fin a =>
      let scale := inject_Z (10 ^ Z.of_nat ndigits) in
      fin (inject_Z (round_half_even (a * scale)) / scale)
  | _ => x
  end.

(** Equality of float values up to the representation of the rational. *)
Definition num_eq (x y : num) : Prop :=
  match x, y with
  | NaN, NaN => True
  | Inf s, Inf s' => s = s'
  | Fin a, Fin b => a == b
  | _, _ => False
  end.

(** The order of the extended reals, as a relation: no NaN is related to
    anything. *)
Inductive num_lt : num -> num -> Prop :=
| lt_fin a b : a < b -> num_lt (Fin a) (Fin b)
| lt_fin_pinf a : num_lt (Fin a) (Inf false)
| lt_ninf_fin b : num_lt (Inf true) (Fin b)
| lt_ninf_pinf : num_lt (Inf true) (Inf false).

End Num.
Export Num.

Declare Scope num_scope.
Delimit Scope num_scope with num.
Bind Scope num_scope with num.
Infix "+" := nadd : num_scope.
Infix "-" := nsub : num_scope.
Infix "*" := nmul : num_scope.
Infix "/" := ndiv : num_scope.
Notation "- x" := (nopp x) : num_scope.
Infix "<?" := nlt : num_scope.
Infix ">?" := ngt : num_scope.
Infix "<=?" := nle : num_scope.
Infix "=n=" := num_eq (at level 70, no associativity).
Infix "<n" := num_lt (at level 70, no associativity).

(** Float literals of the program. *)
Definition lit (z : Z) : num := Fin (inject_Z z).
Definition lit_1_2 : num := Fin (6 # 5).

(** ** Series *)

(** The price frame delivered by the data source, one [Bar] per trading
    day, oldest first.  Only the two columns the program reads are kept.
    Prices and volumes of a history are finite (the design document's
    [Bar]); the derived columns are floats and may be NaN. *)
Record Bar : Type := mkBar { close : Q; volume : Q }.

(** One row of the frame returned by [calculate_indicators]. *)
Record Row : Type := mkRow {
  Close : num;
  Volume : num;
  SMA_50 : num;
  SMA_150 : num;
  SMA_200 : num;
  Vol_SMA : num;
  MACD_Line : num;
  Signal_Line : num;
  MACD_Hist : num;
  RSI : num
}.

Definition series (s : list Q) : list num := map Fin s.

(** The finite values of a window, if all of them are finite. *)
Fixpoint finite_values (l : list num) : option (list Q) :=
  match l with
  | [] => Some []
  | Fin a :: l' =>
      match finite_values l' with
      | Some qs => Some (a :: qs)
      | None => None
      end
  | _ :: _ => None
  end.

Definition Qsum (l : list Q) : Q := fold_right Qplus 0 l.

Definition mean (l : list num) : num :=
  match finite_values l with
  | Some qs => fin (Qsum qs / inject_Z (Z.of_nat (length qs)))
  | None => NaN
  end.

(** The trailing window of [w] values that ends at position [i]. *)
Definition window_at {A : Type} (w i : nat) (s : list A) : list A :=
  firstn w (skipn (S i - w) s).

(** [s.rolling(window=w).mean()]: NaN until the window is full (the
    default [min_periods] is the window), and wherever the window holds a
    value that is not finite. *)
Definition rolling_mean (w : nat) (s : list num) : list num :=
  map (fun i => if (S i <? w)%nat then NaN else mean (window_at w i s))
      (seq 0 (length s)).

(** [s.ewm(span=span, adjust=False).mean()] on a series without missing
    values: [y0 = x0], [y_t = (1 - alpha) * y_(t-1) + alpha * x_t]. *)
Definition alpha (span : Z) : Q := 2 / (inject_Z span + 1).

Fixpoint ewm_loop (a weighted : Q) (vals : list Q) : list Q :=
  match vals with
  | [] => []
  | cur :: rest =>
      let weighted' := Qred ((1 - a) * weighted + a * cur) in
      weighted' :: ewm_loop a weighted' rest
  end.

Definition ewm_mean (span : Z) (vals : list Q) : list Q :=
  match vals with
  | [] => []
  | x0 :: rest => x0 :: ewm_loop (alpha span) x0 rest
  end.

(** [s.diff()]: NaN at the first position. *)
Fixpoint diff_loop (prev : Q) (vals : list Q) : list num :=
  match vals with
  | [] => []
  | cur :: rest => fin (cur - prev) :: diff_loop cur rest
  end.

Definition diff (s : list Q) : list num :=
  match s with
  | [] => []
  | x0 :: rest => NaN :: diff_loop x0 rest
  end.

(** [s.where(cond, other)]: the value where the condition holds, [other]
    elsewhere. *)
Definition where_ (cond : num -> bool) (other : num) (s : list num)
  : list num :=
  map (fun x => if cond x then x else other) s.

(** Element-wise operation on two series with the same index. *)
Fixpoint zip_with {A B C : Type} (f : A -> B -> C)
  (s : list A) (t : list B) : list C :=
  match s, t with
  | x :: s', y :: t' => f x y :: zip_with f s' t'
  | _, _ => []
  end.

Definition Qsub_red (a b : Q) : Q := Qred (a - b).

(** ** Indicator engine: [calculate_indicators] *)

(** The columns, named as in the program. *)
Definition close_column (df : list Bar) : list Q := map close df.
Definition volume_column (df : list Bar) : list Q := map volume df.

Definition SMA_column (w : nat) (df : list Bar) : list num :=
  rolling_mean w (series (close_column df)).

Definition Vol_SMA_column (df : list Bar) : list num :=
  rolling_mean 20 (series (volume_column df)).

Definition ema12 (df : list Bar) : list Q := ewm_mean 12 (close_column df).
Definition ema26 (df : list Bar) : list Q := ewm_mean 26 (close_column df).

Definition MACD_Line_column (df : list Bar) : list Q :=
  zip_with Qsub_red (ema12 df) (ema26 df).

Definition Signal_Line_column (df : list Bar) : list Q :=
  ewm_mean 9 (MACD_Line_column df).

Definition MACD_Hist_column (df : list Bar) : list Q :=
  zip_with Qsub_red (MACD_Line_column df) (Signal_Line_column df).

Definition positive (d : num) : bool := (d >? lit 0)%num.
Definition negative (d : num) : bool := (d <? lit 0)%num.

Definition delta (df : list Bar) : list num := diff (close_column df).

Definition gain (df : list Bar) : list num :=
  where_ positive (lit 0) (delta df).

Definition loss (df : list Bar) : list num :=
  map nopp (where_ negative (lit 0) (delta df)).

Definition avg_gain (df : list Bar) : list num := rolling_mean 14 (gain df).
Definition avg_loss (df : list Bar) : list num := rolling_mean 14 (loss df).

(** [rs = avg_gain / avg_loss] is a division of series: where the average
    loss is zero it yields an infinity (positive average gain) or NaN
    (zero average gain), and raises nothing.  With signed zeros the
    infinity may come out negative; [100 / (1 + rs)] is a zero either
    way, so the oscillator is the same. *)
Definition rs (df : list Bar) : list num :=
  zip_with ndiv (avg_gain df) (avg_loss df).

Definition rsi_of_rs (r : num) : num :=
  (lit 100 - lit 100 / (lit 1 + r))%num.

Definition RSI_column (df : list Bar) : list num := map rsi_of_rs (rs df).

(** The cell of a column at a position. *)
Definition cell (s : list num) (i : nat) : num := nth i s NaN.

(** [calculate_indicators], statement by statement; the frame is returned
    as its rows. *)
Definition calculate_indicators (df : list Bar) : list Row :=
  let df_Close := close_column df in
  let df_Volume := volume_column df in
  let df_SMA_50 := rolling_mean 50 (series df_Close) in
  let df_SMA_150 := rolling_mean 150 (series df_Close) in
  let df_SMA_200 := rolling_mean 200 (series df_Close) in
  let df_Vol_SMA := rolling_mean 20 (series df_Volume) in
  let ema12 := ewm_mean 12 df_Close in
  let ema26 := ewm_mean 26 df_Close in
  let df_MACD_Line := zip_with Qsub_red ema12 ema26 in
  let df_Signal_Line := ewm_mean 9 df_MACD_Line in
  let df_MACD_Hist := zip_with Qsub_red df_MACD_Line df_Signal_Line in
  let delta := diff df_Close in
  let gain := where_ positive (lit 0) delta in
  let loss := map nopp (where_ negative (lit 0) delta) in
  let avg_gain := rolling_mean 14 gain in
  let avg_loss := rolling_mean 14 loss in
  let rs := zip_with ndiv avg_gain avg_loss in
  let df_RSI := map rsi_of_rs rs in
  map (fun i =>
         {| Close := cell (series df_Close) i;
            Volume := cell (series df_Volume) i;
            SMA_50 := cell df_SMA_50 i;
            SMA_150 := cell df_SMA_150 i;
            SMA_200 := cell df_SMA_200 i;
            Vol_SMA := cell df_Vol_SMA i;
            MACD_Line := cell (series df_MACD_Line) i;
            Signal_Line := cell (series df_Signal_Line) i;
            MACD_Hist := cell (series df_MACD_Hist) i;
            RSI := cell df_RSI i |})
      (seq 0 (length df)).

(** The row at a position, from the named columns. *)
Definition row_at (df : list Bar) (i : nat) : Row :=
  {| Close := cell (series (close_column df)) i;
     Volume := cell (series (volume_column df)) i;
     SMA_50 := cell (SMA_column 50 df) i;
     SMA_150 := cell (SMA_column 150 df) i;
     SMA_200 := cell (SMA_column 200 df) i;
     Vol_SMA := cell (Vol_SMA_column df) i;
     MACD_Line := cell (series (MACD_Line_column df)) i;
     Signal_Line := cell (series (Signal_Line_column df)) i;
     MACD_Hist := cell (series (MACD_Hist_column df)) i;
     RSI := cell (RSI_column df) i |}.

(** ** Exceptions *)

Inductive exception : Type :=
| ZeroDivisionError
| IndexError
| SourceFault (msg : string).

Inductive exn (A : Type) : Type :=
| Ret (a : A)
| Raise (e : exception).
Arguments Ret {A} a.
Arguments Raise {A} e.

Definition bind {A B : Type} (c : exn A) (k : A -> exn B) : exn B :=
  match c with
  | Ret a => k a
  | Raise e => Raise e
  end.

Notation "x <- c ;; k" := (bind c (fun x => k))
  (at level 61, c at next level, right associativity).

(** [try: ... except Exception: return None]. *)
Definition try_except {A : Type} (c : exn (option A)) : option A :=
  match c with
  | Ret r => r
  | Raise _ => None
  end.

(** Division of two Python floats: a zero divisor raises. *)
Definition pydiv (x y : num) : exn num :=
  match y with
  | Fin b => if Qzero b then Raise ZeroDivisionError else Ret (x / y)%num
  | _ => Ret (x / y)%num
  end.

(** [df.iloc[-k]]. *)
Definition iloc_neg {A : Type} (rows : list A) (k : nat) : exn A :=
  if (length rows <? k)%nat then Raise IndexError
  else match nth_error rows (length rows - k) with
       | Some r => Ret r
       | None => Raise IndexError
       end.

(** ** Signal evaluator and instrument analyzer: [analyze_stock] *)

Record ScreenResult : Type := mkResult {
  symbol : string;
  price : num;
  change : num;
  res_vol_ratio : num;
  rsi : num;
  score : num
}.

Definition trend_strong (curr : Row) : bool :=
  ((Close curr >? SMA_50 curr) && (SMA_50 curr >? SMA_150 curr)
   && (SMA_150 curr >? SMA_200 curr))%num.

Definition macd_above_zero (curr : Row) : bool :=
  (MACD_Line curr >? lit 0)%num.

Definition macd_trigger (curr prev : Row) : bool :=
  (((MACD_Hist prev <? lit 0) && (MACD_Hist curr >? lit 0))
   || ((MACD_Hist curr >? lit 0) && (MACD_Hist curr >? MACD_Hist prev)))%num.

Definition rsi_check (curr : Row) : bool :=
  ((lit 50 <? RSI curr) && (RSI curr <? lit 85))%num.

Definition vol_ratio (curr : Row) : exn num :=
  if (Vol_SMA curr >? lit 0)%num then pydiv (Volume curr) (Vol_SMA curr)
  else Ret (lit 0).

Definition vol_check (vr : num) : bool := (vr >? lit_1_2)%num.

(** The condition of line 88. *)
Definition rules (curr prev : Row) (vr : num) : bool :=
  trend_strong curr && macd_above_zero curr && macd_trigger curr prev
  && rsi_check curr && vol_check vr.

(** Lines 61 to 96 of [analyze_stock]: the rule set on the last two rows. *)
Definition evaluate (ticker : string) (curr prev : Row)
  : exn (option ScreenResult) :=
  let price := Close curr in
  vr <- vol_ratio curr ;;
  if rules curr prev vr
  then
    d <- pydiv (price - Close prev)%num (Close prev) ;;
    Ret (Some {| symbol := ticker;
                 price := round price 2;
                 change := round (d * lit 100)%num 2;
                 res_vol_ratio := round vr 2;
                 rsi := round (RSI curr) 2;
                 score := round (RSI curr + vr * lit 10)%num 0 |})
  else Ret None.

(** The data source: [yf.download(ticker, period="1y", interval="1d")]
    returns a frame or raises. *)
Definition source : Type := string -> exn (list Bar).

Definition empty (df : list Bar) : bool :=
  match df with [] => true | _ => false end.

(** Lines 59 to 96 of [analyze_stock]: the last two rows of the augmented
    frame, then the rule set. *)
Definition signal_evaluator (ticker : string) (df : list Row)
  : exn (option ScreenResult) :=
  curr <- iloc_neg df 1 ;;
  prev <- iloc_neg df 2 ;;
  evaluate ticker curr prev.

Definition analyze_body (yf_download : source) (ticker : string)
  : exn (option ScreenResult) :=
  df <- yf_download ticker ;;
  if empty df || (length df <? 200)%nat then Ret None
  else
    let df := calculate_indicators df in
    signal_evaluator ticker df.

Definition analyze_stock (yf_download : source) (ticker : string)
  : option ScreenResult :=
  try_except (analyze_body yf_download ticker).

(** ** Scan coordinator: [run_scan] *)

(** [results.sort(key=lambda x: x['score'], reverse=True)]: a stable sort
    that compares keys with [<] only; an element moves behind a neighbour
    only when its score is strictly smaller. *)
Fixpoint insert_desc (x : ScreenResult) (l : list ScreenResult)
  : list ScreenResult :=
  match l with
  | [] => [x]
  | y :: l' =>
      if (score x <? score y)%num then y :: insert_desc x l'
      else x :: y :: l'
  end.

Definition sort_desc (l : list ScreenResult) : list ScreenResult :=
  fold_right insert_desc [] l.

(** The loop over the futures, in submission order: every result that is
    not [None] is appended. *)
Fixpoint collect (futures : list (option ScreenResult))
  : list ScreenResult :=
  match futures with
  | [] => []
  | Some res :: rest => res :: collect rest
  | None :: rest => collect rest
  end.

Definition run_scan_on (yf_download : source) (tickers : list string)
  : list ScreenResult :=
  let futures := map (analyze_stock yf_download) tickers in
  sort_desc (collect futures).

(** The symbols of a universe for which the analyzer returns a result. *)
Definition passes (yf_download : source) (ticker : string) : bool :=
  match analyze_stock yf_download ticker with
  | Some _ => true
  | None => false
  end.

Definition tickers : list string :=
  [ "NVDA"; "AMD"; "TSLA"; "MSFT"; "AAPL"; "META"; "AMZN"; "GOOGL"; "NFLX";
    "PLTR"; "COIN"; "MARA"; "MSTR"; "SMCI"; "ARM"; "AVGO"; "TSM"; "ORCL";
    "PANW"; "CRWD"; "UBER"; "ABNB"; "SHOP"; "SQ"; "DKNG"; "HOOD"; "AFRM";
    "UPST"; "CVNA"; "RIVN"; "LCID"; "SOFI"; "AI"; "PATH"; "U"; "NET" ]%string.

Definition run_scan (yf_download : source) : list ScreenResult :=
  run_scan_on yf_download tickers.

(** ** Sample histories *)

Definition flat (n : nat) (c v : Q) : list Bar := repeat (mkBar c v) n.

Definition flat_220 : list Bar := flat 220 10 100.

(** 198 flat bars, a small dip, then a rise on three times the volume. *)
Definition breakout_200 : list Bar :=
  flat 198 10 100 ++ [mkBar 9 100; mkBar 13 300].

(** The same shape with a previous close of zero. *)
Definition zero_prev_200 : list Bar :=
  flat 198 10 100 ++ [mkBar 0 100; mkBar 30 300].

Definition const_source (df : list Bar) : source := fun _ => Ret df.

(** A data source that fails for one symbol of three. *)
Definition faulty_source : source :=
  fun t =>
    if String.eqb t "BBB" then Raise (SourceFault "connection reset")
    else if String.eqb t "CCC" then Ret zero_prev_200
    else Ret breakout_200.

(** The breakout on four times the volume: a higher score. *)
Definition strong_200 : list Bar :=
  flat 198 10 100 ++ [mkBar 9 100; mkBar 13 400].

(** A universe with two symbols forced to the same score. *)
Definition ranked_source : source :=
  fun t =>
    if String.eqb t "BBB" then Ret strong_200
    else if String.eqb t "DDD" then Ret (flat 100 10 100)
    else Ret breakout_200.

(** The breakout history behind two different older bars. *)
Definition older_a : list Bar := mkBar 10 50 :: breakout_200.
Definition older_b : list Bar := mkBar 10 7000 :: breakout_200.

(** 199 flat bars and a jump on three times the volume: no bar of the
    window fell. *)
Definition jump_200 : list Bar := flat 199 10 100 ++ [mkBar 13 300].

(** The last two rows of the augmented breakout history. *)
Definition breakout_curr : Row := row_at breakout_200 199.
Definition breakout_prev : Row := row_at breakout_200 198.

(** ** The rule set in the words of the design document *)

(** Trend: [price > sma50 > sma150 > sma200], strictly chained. *)
Definition Trend (curr : Row) : Prop :=
  SMA_50 curr <n Close curr /\ SMA_150 curr <n SMA_50 curr
  /\ SMA_200 curr <n SMA_150 curr.

(** Momentum: the line above zero and a fresh crossover or an
    accelerating histogram. *)
Definition Momentum (curr prev : Row) : Prop :=
  lit 0 <n MACD_Line curr
  /\ ((MACD_Hist prev <n lit 0 /\ lit 0 <n MACD_Hist curr)
      \/ (lit 0 <n MACD_Hist curr /\ MACD_Hist prev <n MACD_Hist curr)).

(** Strength band: [50 < rsi < 85]. *)
Definition Strength_band (curr : Row) : Prop :=
  lit 50 <n RSI curr /\ RSI curr <n lit 85.

(** [volRatio = volume / volSma20], and 0 when [volSma20] is not above
    zero (at most zero, or absent). *)
Inductive VolRatio (curr : Row) : num -> Prop :=
| VolRatio_quotient :
    lit 0 <n Vol_SMA curr ->
    VolRatio curr (Volume curr / Vol_SMA curr)%num
| VolRatio_zero :
    ~ lit 0 <n Vol_SMA curr ->
    VolRatio curr (lit 0).

(** Volume surge: [volRatio > 1.2]. *)
Definition Volume_surge (curr : Row) : Prop :=
  exists vr, VolRatio curr vr /\ lit_1_2 <n vr.

Definition all_gates (curr prev : Row) : Prop :=
  Trend curr /\ Momentum curr prev /\ Strength_band curr
  /\ Volume_surge curr.

(** One of the indicator values the rules read is absent. *)
Definition indicator_absent (curr prev : Row) : Prop :=
  SMA_50 curr = NaN \/ SMA_150 curr = NaN \/ SMA_200 curr = NaN
  \/ MACD_Line curr = NaN \/ MACD_Hist curr = NaN \/ MACD_Hist prev = NaN
  \/ RSI curr = NaN \/ Vol_SMA curr = NaN.

(** The record of the design document for a passing instrument. *)
Definition expected_result (ticker : string) (curr prev : Row) (vr : num)
  : ScreenResult :=
  {| symbol := ticker;
     price := round (Close curr) 2;
     change :=
       round ((Close curr - Close prev) / Close prev * lit 100)%num 2;
     res_vol_ratio := round vr 2;
     rsi := round (RSI curr) 2;
     score := round (RSI curr + vr * lit 10)%num 0 |}.

(** An exponential moving average in the words of the design document:
    seeded by the first value, then
    [ema[i] = value[i]*k + ema[i-1]*(1-k)] with [k = 2/(span+1)]. *)
Definition smoothing (span : Z) : Q := 2 # Z.to_pos (span + 1).

Definition is_ema (span : Z) (value ema : list Q) : Prop :=
  length ema = length value
  /\ nth_error ema 0 = nth_error value 0
  /\ forall i, (S i < length value)%nat ->
       nth (S i) ema 0
       == nth (S i) value 0 * smoothing span
          + nth i ema 0 * (1 - smoothing span).

(** Scores compared as floats. *)
Definition neqb (x y : num) : bool :=
  match x, y with
  | Fin a, Fin b => Qeq_bool a b
  | Inf s, Inf s' => Bool.eqb s s'
  | _, _ => false
  end.

Definition has_score (s : num) (r : ScreenResult) : bool :=
  neqb (score r) s.

(** Descending by score. *)
Definition score_ge (a b : ScreenResult) : Prop :=
  (score b <=? score a)%num = true.

Definition scored (r : ScreenResult) : Prop := score r <> NaN.

(** A finite value that is not negative; a value that is zero. *)
Definition nonneg (x : num) : Prop := exists q, x = Fin q /\ 0 <= q.
Definition zero (x : num) : Prop := x =n= lit 0.

(** A history whose closes are all the same price. *)
Definition flat_price (c : Q) (df : list Bar) : Prop :=
  Forall (fun b => close b == c) df.

(** ** Windows by position *)

(** The sum and the mean of the [w] values of a series that end at
    position [i]. *)
Definition trailing_sum (l : list Q) (w i : nat) : Q :=
  Qsum (map (fun j => nth j l 0) (seq (S i - w) w)).

Definition trailing_mean (l : list Q) (w i : nat) : Q :=
  trailing_sum l w i / inject_Z (Z.of_nat w).

(** A windowed average at a position of the frame: absent until [w]
    values are there, their mean afterwards. *)
Definition window_value (l : list Q) (w i : nat) : num :=
  if (S i <? w)%nat then NaN else fin (trailing_mean l w i).

(** Two histories with the same bars from position [a] to position [i]. *)
Definition same_bars (df1 df2 : list Bar) (a i : nat) : Prop :=
  forall j, (a <= j <= i)%nat -> nth_error df1 j = nth_error df2 j.


(** A value between two bounds. *)
Definition within (lo hi q : Q) : Prop := lo <= q /\ q <= hi.

(** ** Float facts *)

Lemma Qltb_lt a b : Qltb a b = true <-> a < b.
Proof.
  unfold Qltb. rewrite Qlt_alt. destruct (a ?= b); split; congruence.
Qed.

Lemma Qltb_ge a b : Qltb a b = false <-> b <= a.
Proof.
  rewrite <- Bool.not_true_iff_false, Qltb_lt. split.
  - apply Qnot_lt_le.
  - apply Qle_not_lt.
Qed.

Lemma Qzero_eq a : Qzero a = true <-> a == 0.
Proof. apply Qeq_bool_iff. Qed.

Lemma Qzero_neq a : Qzero a = false <-> ~ a == 0.
Proof. rewrite <- Bool.not_true_iff_false, Qzero_eq. tauto. Qed.

Lemma nlt_spec x y : (x <? y)%num = true <-> x <n y.
Proof.
  split.
  - destruct x as [|s|a], y as [|s'|b]; simpl; try discriminate.
    + destruct s, s'; simpl; try discriminate. constructor.
    + intros ->. constructor.
    + destruct s'; simpl; try discriminate. constructor.
    + intros H. constructor. now apply Qltb_lt.
  - destruct 1; simpl; trivial. now apply Qltb_lt.
Qed.

Lemma nlt_false x y : (x <? y)%num = false <-> ~ x <n y.
Proof. rewrite <- Bool.not_true_iff_false, nlt_spec. tauto. Qed.

Lemma num_lt_not_nan_l x y : x <n y -> x <> NaN.
Proof. destruct 1; discriminate. Qed.

Lemma num_lt_not_nan_r x y : x <n y -> y <> NaN.
Proof. destruct 1; discriminate. Qed.

Lemma num_eq_refl x : x =n= x.
Proof. destruct x; simpl; trivial. reflexivity. Qed.


(** ** The rule set of the program against the rule set of the document *)

Lemma pydiv_ret x y : ~ y =n= lit 0 -> pydiv x y = Ret (x / y)%num.
Proof.
  destruct y as [|s|b]; simpl; trivial.
  intros H. destruct (Qzero b) eqn:E; trivial.
  apply Qzero_eq in E. contradiction.
Qed.

Lemma pydiv_raise x y : y =n= lit 0 -> pydiv x y = Raise ZeroDivisionError.
Proof.
  destruct y as [|s|b]; simpl; try contradiction.
  intros H. apply Qzero_eq in H. now rewrite H.
Qed.

Lemma positive_not_zero y : lit 0 <n y -> ~ y =n= lit 0.
Proof.
  intros H E. destruct y as [|s|b]; simpl in E; try contradiction.
  inversion H as [a b' Hlt| | |]; subst.
  rewrite E in Hlt. revert Hlt. apply Qlt_irrefl.
Qed.

(** The volume ratio never raises, and is the ratio of the document. *)
Lemma vol_ratio_spec curr :
  exists vr, vol_ratio curr = Ret vr /\ VolRatio curr vr.
Proof.
  unfold vol_ratio, ngt.
  destruct (lit 0 <? Vol_SMA curr)%num eqn:E.
  - apply nlt_spec in E. exists (Volume curr / Vol_SMA curr)%num. split.
    + apply pydiv_ret. now apply positive_not_zero.
    + now constructor.
  - apply nlt_false in E. exists (lit 0). split; trivial. now constructor.
Qed.

(** The ratio of the document for the value [vr] the program computed. *)
Ltac document_ratio curr vr HV :=
  let w := fresh "w" in
  let Hw := fresh "Hw" in
  destruct (vol_ratio_spec curr) as (w & Hw & HV);
  assert (w = vr) by congruence; subst w; clear Hw.

Lemma VolRatio_functional curr v w :
  VolRatio curr v -> VolRatio curr w -> v = w.
Proof. destruct 1; destruct 1; trivial; contradiction. Qed.

Lemma trend_strong_spec curr : trend_strong curr = true <-> Trend curr.
Proof.
  unfold trend_strong, Trend, ngt.
  rewrite !andb_true_iff, !nlt_spec. tauto.
Qed.

Lemma macd_spec curr prev :
  macd_above_zero curr && macd_trigger curr prev = true
  <-> Momentum curr prev.
Proof.
  unfold macd_above_zero, macd_trigger, Momentum, ngt.
  rewrite andb_true_iff, orb_true_iff, !andb_true_iff, !nlt_spec. tauto.
Qed.

Lemma rsi_check_spec curr : rsi_check curr = true <-> Strength_band curr.
Proof.
  unfold rsi_check, Strength_band. rewrite andb_true_iff, !nlt_spec. tauto.
Qed.

Lemma vol_check_spec curr vr :
  vol_ratio curr = Ret vr -> (vol_check vr = true <-> Volume_surge curr).
Proof.
  intros Hvr. document_ratio curr vr HV.
  unfold vol_check, ngt, Volume_surge. rewrite nlt_spec. split.
  - intros H. now exists vr.
  - intros (w & Hw & H). now rewrite (VolRatio_functional _ _ _ HV Hw).
Qed.

Lemma rules_spec curr prev vr :
  vol_ratio curr = Ret vr ->
  (rules curr prev vr = true <-> all_gates curr prev).
Proof.
  intros Hvr. unfold rules, all_gates.
  rewrite <- trend_strong_spec, <- macd_spec, <- rsi_check_spec.
  rewrite <- (vol_check_spec _ _ Hvr), !andb_true_iff. tauto.
Qed.

(** What [evaluate] returns, by cases on the rules and on the previous
    close. *)
Lemma evaluate_fail ticker curr prev vr :
  vol_ratio curr = Ret vr -> rules curr prev vr = false ->
  evaluate ticker curr prev = Ret None.
Proof.
  intros Hvr Hr. unfold evaluate. rewrite Hvr. simpl.
  now rewrite Hr.
Qed.

Lemma evaluate_pass ticker curr prev vr :
  vol_ratio curr = Ret vr -> rules curr prev vr = true ->
  ~ Close prev =n= lit 0 ->
  evaluate ticker curr prev = Ret (Some (expected_result ticker curr prev vr)).
Proof.
  intros Hvr Hr Hz. unfold evaluate. rewrite Hvr. simpl.
  rewrite Hr.
  now rewrite (pydiv_ret _ _ Hz).
Qed.

Lemma evaluate_fault ticker curr prev vr :
  vol_ratio curr = Ret vr -> rules curr prev vr = true ->
  Close prev =n= lit 0 ->
  evaluate ticker curr prev = Raise ZeroDivisionError.
Proof.
  intros Hvr Hr Hz. unfold evaluate. rewrite Hvr. simpl.
  rewrite Hr.
  now rewrite (pydiv_raise _ _ Hz).
Qed.

Lemma num_eq_dec_zero x : {x =n= lit 0} + {~ x =n= lit 0}.
Proof.
  destruct x as [|s|a]; simpl; try (right; tauto).
  destruct (Qeq_dec a (inject_Z 0)); [left | right]; trivial.
Qed.

Lemma evaluate_some ticker curr prev r :
  try_except (evaluate ticker curr prev) = Some r ->
  exists vr, vol_ratio curr = Ret vr /\ rules curr prev vr = true
             /\ ~ Close prev =n= lit 0
             /\ r = expected_result ticker curr prev vr.
Proof.
  destruct (vol_ratio_spec curr) as (vr & Hvr & _).
  intros H. exists vr. split; trivial.
  destruct (rules curr prev vr) eqn:Hr.
  - destruct (num_eq_dec_zero (Close prev)) as [Hz | Hz].
    + rewrite (evaluate_fault _ _ _ _ Hvr Hr Hz) in H. discriminate.
    + rewrite (evaluate_pass _ _ _ _ Hvr Hr Hz) in H. simpl in H.
      repeat split; trivial. congruence.
  - rewrite (evaluate_fail _ _ _ _ Hvr Hr) in H. discriminate.
Qed.

Lemma evaluate_some_iff ticker curr prev :
  (exists r, try_except (evaluate ticker curr prev) = Some r)
  <-> all_gates curr prev /\ ~ Close prev =n= lit 0.
Proof.
  split.
  - intros (r & H). apply evaluate_some in H.
    destruct H as (vr & Hvr & Hr & Hz & _). split; trivial.
    now apply (rules_spec _ _ _ Hvr).
  - intros (Hg & Hz). destruct (vol_ratio_spec curr) as (vr & Hvr & _).
    apply (rules_spec _ _ _ Hvr) in Hg.
    exists (expected_result ticker curr prev vr).
    now rewrite (evaluate_pass _ _ _ _ Hvr Hg Hz).
Qed.

Lemma absent_no_gates curr prev :
  indicator_absent curr prev -> ~ all_gates curr prev.
Proof.
  unfold indicator_absent, all_gates, Trend, Momentum, Strength_band,
    Volume_surge.
  intros Ha (Ht & Hm & Hs & vr & Hv & Hvr).
  assert (Hl : forall x y, x <n y -> x = NaN -> False)
    by (intros x y H; exact (num_lt_not_nan_l _ _ H)).
  assert (Hr : forall x y, x <n y -> y = NaN -> False)
    by (intros x y H; exact (num_lt_not_nan_r _ _ H)).
  destruct Ha as [E|[E|[E|[E|[E|[E|[E|E]]]]]]].
  - destruct Ht as (H & _). exact (Hl _ _ H E).
  - destruct Ht as (_ & H & _). exact (Hl _ _ H E).
  - destruct Ht as (_ & _ & H). exact (Hl _ _ H E).
  - destruct Hm as (H & _). exact (Hr _ _ H E).
  - destruct Hm as (_ & [(_ & H) | (H & _)]); exact (Hr _ _ H E).
  - destruct Hm as (_ & [(H & _) | (_ & H)]); exact (Hl _ _ H E).
  - destruct Hs as (H & _). exact (Hr _ _ H E).
  - destruct Hv as [H | H].
    + exact (Hr _ _ H E).
    + apply nlt_spec in Hvr. discriminate.
Qed.

Lemma evaluate_absent ticker curr prev :
  indicator_absent curr prev -> evaluate ticker curr prev = Ret None.
Proof.
  intros Ha. destruct (vol_ratio_spec curr) as (vr & Hvr & _).
  apply (evaluate_fail _ _ _ _ Hvr).
  apply Bool.not_true_iff_false. intros Hr.
  apply (rules_spec _ _ _ Hvr) in Hr. now apply (absent_no_gates curr prev).
Qed.

(** ** Rows of the augmented frame *)

Lemma length_calculate_indicators df :
  length (calculate_indicators df) = length df.
Proof. unfold calculate_indicators. now rewrite length_map, length_seq. Qed.

Lemma calculate_indicators_row df i :
  (i < length df)%nat ->
  nth_error (calculate_indicators df) i = Some (row_at df i).
Proof.
  intros Hi. unfold calculate_indicators. cbv zeta.
  rewrite nth_error_map, nth_error_seq.
  apply Nat.ltb_lt in Hi. rewrite Hi. reflexivity.
Qed.

Lemma iloc_neg_ret {A : Type} (rows : list A) (k : nat) :
  (1 <= k <= length rows)%nat ->
  exists r, iloc_neg rows k = Ret r
            /\ nth_error rows (length rows - k) = Some r.
Proof.
  intros Hk. unfold iloc_neg.
  destruct (length rows <? k)%nat eqn:E.
  - apply Nat.ltb_lt in E. lia.
  - destruct (nth_error rows (length rows - k)) as [r|] eqn:En.
    + now exists r.
    + apply nth_error_None in En. lia.
Qed.

Lemma iloc_neg_calculate_indicators df k :
  (1 <= k <= length df)%nat ->
  iloc_neg (calculate_indicators df) k = Ret (row_at df (length df - k)).
Proof.
  intros Hk.
  destruct (iloc_neg_ret (calculate_indicators df) k) as (r & Hr & Hn).
  - now rewrite length_calculate_indicators.
  - rewrite length_calculate_indicators in Hn.
    rewrite calculate_indicators_row in Hn by lia. congruence.
Qed.

(** With 200 bars or more the analyzer is the evaluator on the last two
    rows. *)
Lemma analyze_body_evaluate (yf_download : source) ticker df :
  yf_download ticker = Ret df -> (200 <= length df)%nat ->
  analyze_body yf_download ticker
  = evaluate ticker (row_at df (length df - 1)) (row_at df (length df - 2)).
Proof.
  intros Hsrc Hlen. unfold analyze_body. rewrite Hsrc. simpl.
  assert (E : empty df || (length df <? 200)%nat = false).
  { apply orb_false_iff. split.
    - destruct df; trivial. simpl in Hlen. lia.
    - apply Nat.ltb_ge. lia. }
  rewrite E. unfold signal_evaluator.
  rewrite !iloc_neg_calculate_indicators by lia. reflexivity.
Qed.

(** ** Rounding *)

Lemma round_half_even_floor q :
  (Qfloor q <= round_half_even q <= Qfloor q + 1)%Z.
Proof.
  unfold round_half_even.
  destruct (q - inject_Z (Qfloor q) ?= 1 # 2); try lia.
  destruct (Z.even (Qfloor q)); lia.
Qed.

Lemma round_half_even_ge z q :
  inject_Z z <= q -> (z <= round_half_even q)%Z.
Proof.
  intros H. apply Qfloor_resp_le in H. rewrite Qfloor_Z in H.
  pose proof (round_half_even_floor q). lia.
Qed.

Lemma round_0_integer a :
  round (Fin a) 0 =n= lit (round_half_even a)
  /\ round_half_even (a * inject_Z (10 ^ Z.of_nat 0)) = round_half_even a.
Proof.
  assert (E : a * inject_Z (10 ^ Z.of_nat 0) == a).
  { change (inject_Z (10 ^ Z.of_nat 0)) with 1. ring. }
  assert (E' : round_half_even (a * inject_Z (10 ^ Z.of_nat 0))
               = round_half_even a).
  { unfold round_half_even.
    rewrite (Qfloor_comp _ _ E).
    assert (C : (a * inject_Z (10 ^ Z.of_nat 0) - inject_Z (Qfloor a)
                 ?= 1 # 2) = (a - inject_Z (Qfloor a) ?= 1 # 2)).
    { apply Qcompare_comp; [now rewrite E | reflexivity]. }
    now rewrite C. }
  split; trivial.
  unfold round, lit, fin, num_eq. rewrite Qred_correct, E'.
  change (inject_Z (10 ^ Z.of_nat 0)) with 1. field.
Qed.

(** ** Claims about the evaluator *)






Lemma band_finite x lo hi :
  Fin lo <n x -> x <n Fin hi -> exists a, x = Fin a /\ lo < a /\ a < hi.
Proof.
  intros Hlo Hhi. destruct x as [|s|a].
  - inversion Hlo.
  - inversion Hlo; subst. inversion Hhi.
  - exists a. inversion Hlo; subst. inversion Hhi; subst. tauto.
Qed.

Lemma above_cases x lo :
  Fin lo <n x -> x = Inf false \/ exists b, x = Fin b /\ lo < b.
Proof.
  intros H. inversion H; subst.
  - right. eauto.
  - now left.
Qed.

(** C10.  Every record the evaluator emits comes from rows with
    [50 < rsi < 85] and [volRatio > 1.2] before rounding; the unrounded
    composite [rsi + volRatio * 10] exceeds 62 and the emitted score, an
    integer, is at least 62. *)
Theorem emitted_score_bound ticker curr prev r :
  try_except (evaluate ticker curr prev) = Some r ->
  exists vr,
    VolRatio curr vr
    /\ lit 50 <n RSI curr /\ RSI curr <n lit 85 /\ lit_1_2 <n vr
    /\ lit 62 <n (RSI curr + vr * lit 10)%num
    /\ score r = round (RSI curr + vr * lit 10)%num 0
    /\ (lit 62 <=? score r)%num = true
    /\ (forall b, vr = Fin b -> exists z, score r =n= lit z /\ (62 <= z)%Z).
Proof.
  intros H. apply evaluate_some in H.
  destruct H as (vr & Hvr & Hr & _ & ->).
  document_ratio curr vr HV.
  exists vr. split; [exact HV |].
  unfold rules in Hr. rewrite !andb_true_iff in Hr.
  destruct Hr as ((_ & Hrsi) & Hvol).
  apply rsi_check_spec in Hrsi. destruct Hrsi as (H50 & H85).
  unfold vol_check, ngt in Hvol. apply nlt_spec in Hvol.
  split; [exact H50 | split; [exact H85 | split; [exact Hvol |]]].
  destruct (band_finite _ _ _ H50 H85) as (a & Ea & Ha50 & Ha85).
  simpl score. rewrite Ea.
  destruct (above_cases _ _ Hvol) as [-> | (b & -> & Hb)].
  - split; [constructor | split; [reflexivity | split; [reflexivity |]]].
    discriminate.
  - set (x := Qred (a + Qred (b * inject_Z 10))).
    assert (Ex : (Fin a + Fin b * lit 10)%num = Fin x) by reflexivity.
    rewrite Ex.
    assert (Hx : inject_Z 62 < x).
    { assert (Ey : x == a + b * 10).
      { unfold x. rewrite Qred_correct.
        apply Qplus_comp; [reflexivity | apply Qred_correct]. }
      rewrite Ey. change (inject_Z 62) with 62.
      change (inject_Z 50) with 50 in Ha50. lra. }
    destruct (round_0_integer x) as (Hround & _).
    assert (Hz : (62 <= round_half_even x)%Z)
      by (apply round_half_even_ge; now apply Qlt_le_weak).
    split; [now constructor | split; [reflexivity | split]].
    + revert Hround. destruct (round (Fin x) 0) as [|s|y]; simpl;
        try contradiction.
      intros Ey. apply negb_true_iff, Qltb_ge. rewrite Ey.
      now rewrite <- Zle_Qle.
    + intros b' _. now exists (round_half_even x).
Qed.

(** The score of the breakout history is at least 62. *)
Lemma emitted_score_bound_witness :
  exists r,
    try_except (evaluate "NVDA" breakout_curr breakout_prev) = Some r
    /\ (lit 62 <=? score r)%num = true.
Proof.
  assert (E : exists r,
             try_except (evaluate "NVDA" breakout_curr breakout_prev)
             = Some r).
  { eexists. vm_compute. reflexivity. }
  destruct E as (r & Hr). exists r. split; [exact Hr |].
  destruct (emitted_score_bound "NVDA" breakout_curr breakout_prev r Hr)
    as (vr & _ & _ & _ & _ & _ & _ & H & _).
  exact H.
Defined.

(** C6.  The volume ratio of a row whose volume is not negative is never
    negative; when the 20-bar volume average is at most zero, or absent,
    the ratio is exactly 0; the computation raises no division fault. *)
Theorem vol_ratio_nonnegative curr v :
  Volume curr = Fin v -> 0 <= v ->
  exists vr,
    vol_ratio curr = Ret vr
    /\ (lit 0 <=? vr)%num = true
    /\ (lit 0 <n Vol_SMA curr -> vr = (Volume curr / Vol_SMA curr)%num)
    /\ ((Vol_SMA curr <=? lit 0)%num = true \/ Vol_SMA curr = NaN ->
        vr = lit 0).
Proof.
  intros Ev Hv. unfold vol_ratio, ngt.
  destruct (lit 0 <? Vol_SMA curr)%num eqn:E.
  - apply nlt_spec in E.
    exists (Volume curr / Vol_SMA curr)%num. split; [| split; [| split]].
    + apply pydiv_ret. now apply positive_not_zero.
    + rewrite Ev. inversion E as [a b Hlt Ea Eb | a Ea Eb | |]; subst.
      * unfold ndiv, lit. destruct (Qzero b) eqn:Ez.
        { apply Qzero_eq in Ez. rewrite Ez in Hlt.
          now apply Qlt_irrefl in Hlt. }
        unfold fin, nle. apply negb_true_iff, Qltb_ge.
        rewrite Qred_correct. change (inject_Z 0) with 0 in *.
        apply Qle_shift_div_l; trivial. now rewrite Qmult_0_l.
      * reflexivity.
    + trivial.
    + intros [H | H].
      * exfalso. destruct (Vol_SMA curr) as [|s|b]; simpl in H;
          try discriminate.
        { inversion E; subst. discriminate. }
        inversion E as [a b' Hlt | | |]; subst.
        apply negb_true_iff, Qltb_ge in H.
        exact (Qlt_irrefl _ (Qlt_le_trans _ _ _ Hlt H)).
      * rewrite H in E. inversion E.
  - apply nlt_false in E. exists (lit 0). split; [| split; [| split]];
      trivial; tauto.
Qed.

(** The volume ratio at the last row of the breakout history. *)
Lemma vol_ratio_nonnegative_witness :
  exists vr,
    vol_ratio breakout_curr = Ret vr /\ (lit 0 <=? vr)%num = true.
Proof.
  assert (Ev : Volume breakout_curr = Fin 300) by (vm_compute; reflexivity).
  assert (Hv : 0 <= 300) by (apply Qle_bool_iff; reflexivity).
  destruct (vol_ratio_nonnegative breakout_curr 300 Ev Hv)
    as (vr & H1 & H2 & _).
  exists vr. split; assumption.
Defined.

(** C4.  For every history that is empty or has fewer than 200 bars the
    analyzer returns absent, and it does so without raising. *)
Theorem insufficient_history_absent (yf_download : source) ticker df :
  yf_download ticker = Ret df -> (length df < 200)%nat ->
  analyze_body yf_download ticker = Ret None
  /\ analyze_stock yf_download ticker = None.
Proof.
  intros Hsrc Hlen.
  assert (E : analyze_body yf_download ticker = Ret None).
  { unfold analyze_body. rewrite Hsrc. simpl.
    apply Nat.ltb_lt in Hlen. rewrite Hlen, orb_true_r. reflexivity. }
  split; trivial. unfold analyze_stock. now rewrite E.
Qed.

(** A flat history of 199 bars is one bar short. *)
Lemma insufficient_history_absent_witness :
  analyze_body (const_source (flat 199 10 100)) "NVDA" = Ret None
  /\ analyze_stock (const_source (flat 199 10 100)) "NVDA" = None.
Proof.
  apply (insufficient_history_absent (const_source (flat 199 10 100))
           "NVDA" (flat 199 10 100)).
  - reflexivity.
  - apply Nat.ltb_lt. vm_compute. reflexivity.
Defined.

(** ** The scan *)

Lemma nle_trans x y z :
  (x <=? y)%num = true -> (y <=? z)%num = true -> (x <=? z)%num = true.
Proof.
  destruct x as [|[]|a], y as [|[]|b], z as [|[]|c]; simpl;
    try (intros; (reflexivity || discriminate)).
  rewrite !negb_true_iff, !Qltb_ge. intros H1 H2.
  exact (Qle_trans _ _ _ H1 H2).
Qed.

Lemma nlt_nle x y : (x <? y)%num = true -> (x <=? y)%num = true.
Proof.
  destruct x as [|[]|a], y as [|[]|b]; simpl;
    try (intros; (reflexivity || discriminate)).
  intros H. apply Qltb_lt in H. apply negb_true_iff, Qltb_ge.
  now apply Qlt_le_weak.
Qed.

Lemma not_nlt_nle x y :
  x <> NaN -> y <> NaN -> (x <? y)%num = false -> (y <=? x)%num = true.
Proof.
  destruct x as [|[]|a], y as [|[]|b]; simpl; try congruence;
    intros _ _; try (intros; (reflexivity || discriminate)).
  intros H. now rewrite H.
Qed.

Lemma neqb_not_nlt x y s :
  neqb x s = true -> neqb y s = true -> (x <? y)%num = false.
Proof.
  destruct x as [|[]|a], y as [|[]|b], s as [|[]|c]; simpl;
    try (intros; (reflexivity || discriminate)).
  intros H1 H2. apply Qeq_bool_iff in H1, H2.
  apply Qltb_ge. rewrite H1, H2. apply Qle_refl.
Qed.

Lemma insert_desc_perm x l : Permutation (x :: l) (insert_desc x l).
Proof.
  induction l as [|y l IH]; simpl.
  - apply Permutation_refl.
  - destruct (score x <? score y)%num.
    + apply perm_trans with (y :: x :: l).
      * apply perm_swap.
      * now apply perm_skip.
    + apply Permutation_refl.
Qed.

Lemma sort_desc_perm l : Permutation l (sort_desc l).
Proof.
  induction l as [|x l IH]; simpl.
  - apply perm_nil.
  - apply perm_trans with (x :: sort_desc l).
    + now apply perm_skip.
    + apply insert_desc_perm.
Qed.

Lemma insert_desc_sorted x l :
  scored x -> Forall scored l ->
  StronglySorted score_ge l -> StronglySorted score_ge (insert_desc x l).
Proof.
  intros Hx Hl Hs. induction Hs as [|y l Hs IH Hy]; simpl.
  - constructor; constructor.
  - inversion Hl as [|y' l' Sy Sl]; subst.
    destruct (score x <? score y)%num eqn:E.
    + constructor.
      * now apply IH.
      * apply (Permutation_Forall (insert_desc_perm x l)).
        constructor; trivial. unfold score_ge. now apply nlt_nle.
    + assert (Hyx : score_ge x y) by (now apply not_nlt_nle).
      constructor.
      * now constructor.
      * constructor; trivial.
        apply (Forall_impl _ (P := score_ge y)); trivial.
        intros z Hz. unfold score_ge in *.
        exact (nle_trans _ _ _ Hz Hyx).
Qed.

Lemma sort_desc_sorted l :
  Forall scored l -> StronglySorted score_ge (sort_desc l).
Proof.
  induction 1 as [|x l Hx Hl IH]; simpl.
  - constructor.
  - apply insert_desc_sorted; trivial.
    now apply (Permutation_Forall (sort_desc_perm l)).
Qed.

Lemma insert_desc_stable s x l :
  filter (has_score s) (insert_desc x l) = filter (has_score s) (x :: l).
Proof.
  induction l as [|y l IH]; trivial.
  simpl insert_desc. destruct (score x <? score y)%num eqn:E; trivial.
  cbn [filter]. rewrite IH. cbn [filter].
  destruct (has_score s x) eqn:Ex, (has_score s y) eqn:Ey; trivial.
  unfold has_score in Ex, Ey.
  rewrite (neqb_not_nlt _ _ _ Ex Ey) in E. discriminate.
Qed.

Lemma sort_desc_stable s l :
  filter (has_score s) (sort_desc l) = filter (has_score s) l.
Proof.
  induction l as [|x l IH]; trivial.
  simpl sort_desc. rewrite insert_desc_stable. simpl. now rewrite IH.
Qed.

Lemma collect_app l1 l2 : collect (l1 ++ l2) = collect l1 ++ collect l2.
Proof.
  induction l1 as [|[r|] l1 IH]; simpl; trivial. now rewrite IH.
Qed.

Lemma collect_none l : Forall (fun o => o = None) l -> collect l = [].
Proof. induction 1 as [|o l Ho _ IH]; trivial. subst. exact IH. Qed.

Lemma In_collect r l : In r (collect l) -> In (Some r) l.
Proof.
  induction l as [|[x|] l IH]; simpl; trivial.
  - intros [-> | H]; auto.
  - auto.
Qed.

Section Scan.

(** The data source of the scan. *)
Variable yf_download : source.

(** A result of the analyzer is a result of the evaluator on some rows. *)
Lemma analyze_stock_some ticker r :
  analyze_stock yf_download ticker = Some r ->
  exists curr prev, try_except (evaluate ticker curr prev) = Some r.
Proof.
  unfold analyze_stock, analyze_body.
  destruct (yf_download ticker) as [df|e]; simpl; try discriminate.
  destruct (empty df || (length df <? 200)%nat); simpl; try discriminate.
  unfold signal_evaluator.
  destruct (iloc_neg (calculate_indicators df) 1) as [curr|];
    simpl; try discriminate.
  destruct (iloc_neg (calculate_indicators df) 2) as [prev|];
    simpl; try discriminate.
  intros H. now exists curr, prev.
Qed.

Lemma evaluate_scored ticker curr prev r :
  try_except (evaluate ticker curr prev) = Some r -> scored r.
Proof.
  intros H. apply evaluate_some in H.
  destruct H as (vr & _ & Hr & _ & ->).
  unfold rules in Hr. rewrite !andb_true_iff in Hr.
  destruct Hr as ((_ & Hrsi) & Hvol).
  apply rsi_check_spec in Hrsi. destruct Hrsi as (H50 & H85).
  unfold vol_check, ngt in Hvol. apply nlt_spec in Hvol.
  destruct (band_finite _ _ _ H50 H85) as (a & Ea & _).
  unfold scored. simpl score. rewrite Ea.
  destruct (above_cases _ _ Hvol) as [-> | (b & -> & _)]; discriminate.
Qed.

Lemma collect_scored universe :
  Forall scored (collect (map (analyze_stock yf_download) universe)).
Proof.
  apply Forall_forall. intros r Hr. apply In_collect in Hr.
  apply in_map_iff in Hr. destruct Hr as (t & Ht & _).
  apply analyze_stock_some in Ht. destruct Ht as (curr & prev & H).
  exact (evaluate_scored _ _ _ _ H).
Qed.

Lemma analyze_stock_symbol ticker r :
  analyze_stock yf_download ticker = Some r -> symbol r = ticker.
Proof.
  intros H. apply analyze_stock_some in H. destruct H as (curr & prev & H).
  apply evaluate_some in H. now destruct H as (vr & _ & _ & _ & ->).
Qed.

(** The collected results are those of the passing symbols, in the order
    of the universe. *)
Lemma collect_universe_order universe :
  map symbol (collect (map (analyze_stock yf_download) universe))
  = filter (passes yf_download) universe.
Proof.
  induction universe as [|t universe IH]; trivial.
  cbn [map filter]. unfold passes at 1.
  destruct (analyze_stock yf_download t) as [r|] eqn:E; cbn [collect map].
  - now rewrite IH, (analyze_stock_symbol t r E).
  - exact IH.
Qed.

(** C5.  For every universe the output of the scan is sorted by score in
    descending order; it holds the non-absent results of the universe,
    those with equal scores in universe order; and it is empty when no
    instrument passes. *)
Theorem run_scan_ranked (universe : list string) :
  StronglySorted score_ge (run_scan_on yf_download universe)
  /\ Permutation (collect (map (analyze_stock yf_download) universe))
       (run_scan_on yf_download universe)
  /\ (forall s,
        filter (has_score s) (run_scan_on yf_download universe)
        = filter (has_score s)
            (collect (map (analyze_stock yf_download) universe)))
  /\ map symbol (collect (map (analyze_stock yf_download) universe))
     = filter (passes yf_download) universe
  /\ (Forall (fun t => analyze_stock yf_download t = None) universe ->
      run_scan_on yf_download universe = []).
Proof.
  unfold run_scan_on. split; [| split; [| split; [| split]]].
  - apply sort_desc_sorted, collect_scored.
  - apply sort_desc_perm.
  - intros s. apply sort_desc_stable.
  - apply collect_universe_order.
  - intros H. rewrite collect_none; trivial.
    apply Forall_map. exact H.
Qed.

Lemma fetch_fault_raises ticker e :
  yf_download ticker = Raise e -> analyze_body yf_download ticker = Raise e.
Proof. intros H. unfold analyze_body. now rewrite H. Qed.

(** C3.  A fault raised while fetching or evaluating one instrument is
    caught inside the analyzer and becomes absent, and the scan of a
    universe that holds the faulty symbol returns what the scan of the
    other symbols returns. *)
Theorem fault_isolated before ticker after e :
  yf_download ticker = Raise e \/ analyze_body yf_download ticker = Raise e ->
  analyze_stock yf_download ticker = None
  /\ run_scan_on yf_download (before ++ ticker :: after)
     = run_scan_on yf_download (before ++ after).
Proof.
  intros H.
  assert (Hb : analyze_body yf_download ticker = Raise e)
    by (destruct H; [now apply fetch_fault_raises | trivial]).
  assert (Hn : analyze_stock yf_download ticker = None)
    by (unfold analyze_stock; now rewrite Hb).
  split; trivial. unfold run_scan_on.
  rewrite !map_app, !collect_app. simpl. now rewrite Hn.
Qed.

End Scan.

(** Three symbols, the middle one failing at the download or at the
    percentage change: the other two results are returned. *)
Lemma fault_isolated_witness :
  (analyze_stock faulty_source "BBB" = None
   /\ run_scan_on faulty_source ["AAA"; "BBB"; "DDD"]%string
      = run_scan_on faulty_source ["AAA"; "DDD"]%string)
  /\ (analyze_stock faulty_source "CCC" = None
      /\ run_scan_on faulty_source ["AAA"; "CCC"; "DDD"]%string
         = run_scan_on faulty_source ["AAA"; "DDD"]%string)
  /\ length (run_scan_on faulty_source ["AAA"; "DDD"]%string) = 2%nat.
Proof.
  split; [| split].
  - apply (fault_isolated faulty_source ["AAA"]%string "BBB" ["DDD"]%string
             (SourceFault "connection reset")).
    left. reflexivity.
  - apply (fault_isolated faulty_source ["AAA"]%string "CCC" ["DDD"]%string
             ZeroDivisionError).
    right. vm_compute. reflexivity.
  - vm_compute. reflexivity.
Defined.

(** ** The momentum oscillator *)

Lemma length_ewm_loop a w vals : length (ewm_loop a w vals) = length vals.
Proof.
  revert w. induction vals as [|x vals IH]; intros w; simpl; trivial.
  now rewrite IH.
Qed.

Lemma length_ewm_mean span vals : length (ewm_mean span vals) = length vals.
Proof.
  destruct vals as [|x vals]; simpl; trivial. now rewrite length_ewm_loop.
Qed.

(** The loop against its previous output, the seed included. *)
Lemma ewm_loop_nth a vals :
  forall w i, (i < length vals)%nat ->
    nth i (ewm_loop a w vals) 0
    == nth i vals 0 * a + nth i (w :: ewm_loop a w vals) 0 * (1 - a).
Proof.
  induction vals as [|x vals IH]; intros w i Hi; simpl in Hi; [lia |].
  destruct i as [|i].
  - cbn [nth ewm_loop]. rewrite Qred_correct. ring.
  - change (nth (S i) (ewm_loop a w (x :: vals)) 0)
      with (nth i (ewm_loop a (Qred ((1 - a) * w + a * x)) vals) 0).
    change (nth (S i) (x :: vals) 0) with (nth i vals 0).
    change (nth (S i) (w :: ewm_loop a w (x :: vals)) 0)
      with (nth i (Qred ((1 - a) * w + a * x)
                   :: ewm_loop a (Qred ((1 - a) * w + a * x)) vals) 0).
    apply IH. lia.
Qed.

Lemma ewm_mean_is_ema span vals :
  alpha span == smoothing span -> is_ema span vals (ewm_mean span vals).
Proof.
  intros Ha. split; [apply length_ewm_mean | split].
  - now destruct vals.
  - intros i Hi. destruct vals as [|x0 rest]; simpl in Hi; [lia |].
    change (nth (S i) (ewm_mean span (x0 :: rest)) 0)
      with (nth i (ewm_loop (alpha span) x0 rest) 0).
    change (nth (S i) (x0 :: rest) 0) with (nth i rest 0).
    change (nth i (ewm_mean span (x0 :: rest)) 0)
      with (nth i (x0 :: ewm_loop (alpha span) x0 rest) 0).
    rewrite <- Ha. apply ewm_loop_nth. lia.
Qed.

Lemma length_zip_with {A B C : Type} (f : A -> B -> C) s t :
  length (zip_with f s t) = Nat.min (length s) (length t).
Proof.
  revert t. induction s as [|x s IH]; intros [|y t]; simpl; trivial.
  now rewrite IH.
Qed.

Lemma nth_zip_with {A B C : Type} (f : A -> B -> C) s t i d da db :
  (i < length s)%nat -> (i < length t)%nat ->
  nth i (zip_with f s t) d = f (nth i s da) (nth i t db).
Proof.
  revert t i. induction s as [|x s IH]; intros [|y t] i Hs Ht;
    simpl in *; try lia.
  destruct i as [|i]; trivial. apply IH; lia.
Qed.

Lemma cell_series l i :
  (i < length l)%nat -> cell (series l) i = Fin (nth i l 0).
Proof.
  intros Hi. unfold cell, series.
  rewrite (nth_indep _ NaN (Fin 0)) by (now rewrite length_map).
  apply map_nth.
Qed.

Lemma length_ema12 df : length (ema12 df) = length df.
Proof. unfold ema12, close_column. now rewrite length_ewm_mean, length_map. Qed.

Lemma length_ema26 df : length (ema26 df) = length df.
Proof. unfold ema26, close_column. now rewrite length_ewm_mean, length_map. Qed.

Lemma length_MACD_Line df : length (MACD_Line_column df) = length df.
Proof.
  unfold MACD_Line_column.
  rewrite length_zip_with, length_ema12, length_ema26. apply Nat.min_id.
Qed.

Lemma length_Signal_Line df : length (Signal_Line_column df) = length df.
Proof.
  unfold Signal_Line_column. now rewrite length_ewm_mean, length_MACD_Line.
Qed.

Lemma length_MACD_Hist df : length (MACD_Hist_column df) = length df.
Proof.
  unfold MACD_Hist_column.
  rewrite length_zip_with, length_MACD_Line, length_Signal_Line.
  apply Nat.min_id.
Qed.

Lemma calculate_indicators_row_inv df i row :
  nth_error (calculate_indicators df) i = Some row ->
  (i < length df)%nat /\ row = row_at df i.
Proof.
  intros H.
  assert (Hi : (i < length df)%nat).
  { rewrite <- length_calculate_indicators. apply nth_error_Some.
    congruence. }
  split; trivial. rewrite calculate_indicators_row in H by trivial.
  congruence.
Qed.

(** C8.  For every history, [ema12] and [ema26] are exponential moving
    averages of the close, seeded by the first close, with the recurrence
    [ema[i] = value[i]*k + ema[i-1]*(1-k)] and [k = 2/(span+1)]; the
    signal line is the span-9 average of the MACD line under the same
    recurrence; and at every row [MACD_Line = ema12 - ema26] and
    [MACD_Hist = MACD_Line - Signal_Line]. *)
Theorem macd_columns df :
  is_ema 12 (map close df) (ema12 df)
  /\ is_ema 26 (map close df) (ema26 df)
  /\ is_ema 9 (MACD_Line_column df) (Signal_Line_column df)
  /\ forall i row,
       nth_error (calculate_indicators df) i = Some row ->
       MACD_Line row
       = (Fin (nth i (ema12 df) 0) - Fin (nth i (ema26 df) 0))%num
       /\ MACD_Line row = Fin (nth i (MACD_Line_column df) 0)
       /\ Signal_Line row = Fin (nth i (Signal_Line_column df) 0)
       /\ MACD_Hist row = (MACD_Line row - Signal_Line row)%num.
Proof.
  split; [| split; [| split]].
  - apply ewm_mean_is_ema. reflexivity.
  - apply ewm_mean_is_ema. reflexivity.
  - apply ewm_mean_is_ema. reflexivity.
  - intros i row H.
    apply calculate_indicators_row_inv in H. destruct H as (Hi & ->).
    assert (Em : MACD_Line (row_at df i)
                 = (Fin (nth i (ema12 df) 0)
                    - Fin (nth i (ema26 df) 0))%num).
    { unfold row_at, MACD_Line.
      rewrite cell_series by (now rewrite length_MACD_Line).
      unfold MACD_Line_column.
      rewrite (nth_zip_with _ _ _ _ _ 0 0)
        by (now rewrite ?length_ema12, ?length_ema26).
      reflexivity. }
    assert (Es : Signal_Line (row_at df i)
                 = Fin (nth i (Signal_Line_column df) 0)).
    { unfold row_at, Signal_Line.
      now rewrite cell_series by (now rewrite length_Signal_Line). }
    assert (El : MACD_Line (row_at df i)
                 = Fin (nth i (MACD_Line_column df) 0)).
    { unfold row_at, MACD_Line.
      now rewrite cell_series by (now rewrite length_MACD_Line). }
    split; [exact Em | split; [exact El | split; [exact Es |]]].
    rewrite Es, El. unfold row_at, MACD_Hist.
    rewrite cell_series by (now rewrite length_MACD_Hist).
    unfold MACD_Hist_column.
    rewrite (nth_zip_with _ _ _ _ _ 0 0)
      by (now rewrite ?length_MACD_Line, ?length_Signal_Line).
    reflexivity.
Qed.

(** ** The relative-strength oscillator *)

Lemma Forall_firstn {A : Type} (P : A -> Prop) n l :
  Forall P l -> Forall P (firstn n l).
Proof.
  intros H. revert n. induction H as [|x l Hx _ IH]; intros [|n]; simpl;
    constructor; auto.
Qed.

Lemma Forall_skipn {A : Type} (P : A -> Prop) n l :
  Forall P l -> Forall P (skipn n l).
Proof.
  intros H. revert n. induction H as [|x l Hx Hl IH]; intros [|n]; simpl;
    auto.
Qed.

Lemma Forall_window {A : Type} (P : A -> Prop) w i l :
  Forall P l -> Forall P (window_at w i l).
Proof. intros H. now apply Forall_firstn, Forall_skipn. Qed.

Lemma length_rolling_mean w s : length (rolling_mean w s) = length s.
Proof. unfold rolling_mean. now rewrite length_map, length_seq. Qed.

Lemma cell_out_of_range s i : (length s <= i)%nat -> cell s i = NaN.
Proof. intros H. now apply nth_overflow. Qed.

Lemma cell_rolling_mean w s i :
  cell (rolling_mean w s) i = NaN
  \/ cell (rolling_mean w s) i = mean (window_at w i s).
Proof.
  destruct (Nat.lt_ge_cases i (length s)) as [Hi | Hi].
  - assert (E : nth_error (rolling_mean w s) i
                 = Some (if (S i <? w)%nat then NaN
                         else mean (window_at w i s))).
    { unfold rolling_mean. rewrite nth_error_map, nth_error_seq.
      apply Nat.ltb_lt in Hi. now rewrite Hi. }
    unfold cell. rewrite (nth_error_nth _ _ NaN E).
    destruct (S i <? w)%nat; auto.
  - left. apply cell_out_of_range. now rewrite length_rolling_mean.
Qed.

Lemma finite_values_nonneg l :
  Forall nonneg l ->
  exists qs, finite_values l = Some qs /\ Forall (fun q => 0 <= q) qs.
Proof.
  induction 1 as [|x l (q & -> & Hq) _ (qs & E & Hqs)]; simpl.
  - exists []. split; trivial.
  - rewrite E. exists (q :: qs). split; trivial. now constructor.
Qed.

Lemma Qsum_nonneg qs : Forall (fun q => 0 <= q) qs -> 0 <= Qsum qs.
Proof.
  induction 1 as [|q qs Hq _ IH]; simpl.
  - apply Qle_refl.
  - change 0 with (0 + 0). now apply Qplus_le_compat.
Qed.

Lemma mean_nonneg l : Forall nonneg l -> nonneg (mean l).
Proof.
  intros H. destruct (finite_values_nonneg l H) as (qs & E & Hqs).
  unfold mean. rewrite E. eexists. split; [reflexivity |].
  rewrite Qred_correct. apply Qmult_le_0_compat.
  - now apply Qsum_nonneg.
  - apply Qinv_le_0_compat. change 0 with (inject_Z 0).
    rewrite <- Zle_Qle. lia.
Qed.

Lemma finite_values_zero l :
  Forall zero l ->
  exists qs, finite_values l = Some qs /\ Forall (fun q => q == 0) qs.
Proof.
  induction 1 as [|x l Hx _ (qs & E & Hqs)]; simpl.
  - exists []. split; trivial.
  - destruct x as [|s|q]; simpl in Hx; try contradiction.
    rewrite E. exists (q :: qs). split; trivial. now constructor.
Qed.

Lemma Qsum_zero qs : Forall (fun q => q == 0) qs -> Qsum qs == 0.
Proof.
  induction 1 as [|q qs Hq _ IH]; simpl.
  - reflexivity.
  - rewrite Hq, IH. reflexivity.
Qed.

Lemma mean_zero l : Forall zero l -> zero (mean l).
Proof.
  intros H. destruct (finite_values_zero l H) as (qs & E & Hqs).
  unfold mean, zero. rewrite E. unfold fin, lit, num_eq.
  rewrite Qred_correct, (Qsum_zero _ Hqs).
  change (inject_Z 0) with 0. unfold Qdiv. apply Qmult_0_l.
Qed.

(** The differences of a series: NaN first, finite afterwards. *)
Lemma diff_loop_finite prev vals :
  Forall (fun d => exists q, d = Fin q) (diff_loop prev vals).
Proof.
  revert prev. induction vals as [|x vals IH]; intros prev; simpl;
    constructor; eauto. unfold fin. eauto.
Qed.

Lemma diff_cases s :
  Forall (fun d => d = NaN \/ exists q, d = Fin q) (diff s).
Proof.
  destruct s as [|x s]; simpl; constructor; auto.
  apply (Forall_impl _ (P := fun d => exists q, d = Fin q)); auto.
  apply diff_loop_finite.
Qed.

Lemma gain_nonneg df : Forall nonneg (gain df).
Proof.
  unfold gain, where_. apply Forall_map.
  apply (Forall_impl _ (P := fun d => d = NaN \/ exists q, d = Fin q)).
  - intros d [-> | (q & ->)].
    + exists (inject_Z 0). split; trivial. apply Qle_refl.
    + unfold positive, ngt, lit at 1. simpl nlt.
      destruct (Qltb (inject_Z 0) q) eqn:E.
      * exists q. split; trivial. apply Qltb_lt in E.
        now apply Qlt_le_weak.
      * exists (inject_Z 0). split; trivial. apply Qle_refl.
  - apply diff_cases.
Qed.

Lemma loss_nonneg df : Forall nonneg (loss df).
Proof.
  unfold loss, where_. rewrite map_map. apply Forall_map.
  apply (Forall_impl _ (P := fun d => d = NaN \/ exists q, d = Fin q)).
  - intros d [-> | (q & ->)].
    + exists (Qred (- inject_Z 0)). split; trivial. now rewrite Qred_correct.
    + unfold negative, lit at 1. simpl nlt.
      destruct (Qltb q (inject_Z 0)) eqn:E.
      * exists (Qred (- q)). split; trivial. rewrite Qred_correct.
        apply Qltb_lt in E. change (inject_Z 0) with 0 in E. lra.
      * exists (Qred (- inject_Z 0)). split; trivial.
        now rewrite Qred_correct.
  - apply diff_cases.
Qed.

Lemma cell_avg_gain df i :
  cell (avg_gain df) i = NaN \/ nonneg (cell (avg_gain df) i).
Proof.
  unfold avg_gain.
  destruct (cell_rolling_mean 14 (gain df) i) as [-> | ->]; auto.
  right. apply mean_nonneg, Forall_window, gain_nonneg.
Qed.

Lemma cell_avg_loss df i :
  cell (avg_loss df) i = NaN \/ nonneg (cell (avg_loss df) i).
Proof.
  unfold avg_loss.
  destruct (cell_rolling_mean 14 (loss df) i) as [-> | ->]; auto.
  right. apply mean_nonneg, Forall_window, loss_nonneg.
Qed.

Lemma length_diff s : length (diff s) = length s.
Proof.
  destruct s as [|x s]; simpl; trivial. f_equal.
  revert x. induction s as [|y s IH]; intros x; simpl; trivial.
  now rewrite IH.
Qed.

Lemma length_avg_gain df : length (avg_gain df) = length df.
Proof.
  unfold avg_gain, gain, where_, delta, close_column.
  now rewrite length_rolling_mean, length_map, length_diff, length_map.
Qed.

Lemma length_avg_loss df : length (avg_loss df) = length df.
Proof.
  unfold avg_loss, loss, where_, delta, close_column.
  now rewrite length_rolling_mean, !length_map, length_diff, length_map.
Qed.

(** The oscillator at a position, from the two averages there. *)
Lemma cell_RSI df i :
  cell (RSI_column df) i
  = rsi_of_rs (cell (avg_gain df) i / cell (avg_loss df) i)%num.
Proof.
  destruct (Nat.lt_ge_cases i (length df)) as [Hi | Hi].
  - unfold cell at 1, RSI_column.
    change NaN with (rsi_of_rs NaN) at 1. rewrite map_nth. f_equal.
    unfold rs. apply nth_zip_with.
    + now rewrite length_avg_gain.
    + now rewrite length_avg_loss.
  - rewrite !cell_out_of_range; trivial.
    + now rewrite length_avg_loss.
    + now rewrite length_avg_gain.
    + unfold RSI_column, rs.
      rewrite length_map, length_zip_with, length_avg_gain, length_avg_loss.
      now rewrite Nat.min_id.
Qed.

Lemma rsi_of_nan_l l : rsi_of_rs (NaN / l)%num = NaN.
Proof. reflexivity. Qed.

Lemma rsi_of_nan_r g : rsi_of_rs (g / NaN)%num = NaN.
Proof. now destruct g. Qed.

Lemma rsi_zero_zero g l : zero l -> zero g -> rsi_of_rs (g / l)%num = NaN.
Proof.
  unfold zero. destruct g as [|s|a], l as [|t|b]; simpl; try contradiction.
  intros Hb Ha. apply Qzero_eq in Ha, Hb. now rewrite Ha, Hb.
Qed.

Lemma Qneg_nonneg a : 0 <= a -> Qneg a = false.
Proof. intros H. now apply Qltb_ge. Qed.

Lemma rsi_zero_loss g l :
  zero l -> lit 0 <n g -> rsi_of_rs (g / l)%num = lit 100.
Proof.
  unfold zero. intros Hl Hg.
  destruct l as [|t|b]; simpl in Hl; try contradiction.
  assert (Eb : Qzero b = true) by (now apply Qzero_eq).
  assert (Nb : Qneg b = false)
    by (apply Qneg_nonneg; rewrite Hl; apply Qle_refl).
  inversion Hg as [z a Ha | z | |]; subst.
  - assert (Ea : Qzero a = false).
    { apply Qzero_neq. intros E. rewrite E in Ha.
      exact (Qlt_irrefl _ Ha). }
    assert (Na : Qneg a = false)
      by (apply Qneg_nonneg; now apply Qlt_le_weak).
    unfold ndiv. now rewrite Eb, Ea, Na.
  - unfold ndiv. now rewrite Nb.
Qed.

Lemma rsi_in_range g l :
  nonneg g -> nonneg l ->
  rsi_of_rs (g / l)%num = NaN
  \/ ((lit 0 <=? rsi_of_rs (g / l))%num = true
      /\ (rsi_of_rs (g / l) <=? lit 100)%num = true).
Proof.
  intros (a & -> & Ha) (b & -> & Hb).
  destruct (Qzero b) eqn:Eb.
  - destruct (Qzero a) eqn:Ea.
    + left. apply rsi_zero_zero; unfold zero; simpl; now apply Qzero_eq.
    + right. rewrite rsi_zero_loss.
      * split; reflexivity.
      * unfold zero. simpl. now apply Qzero_eq.
      * constructor. apply Qzero_neq in Ea. change (inject_Z 0) with 0.
        destruct (Qle_lt_or_eq _ _ Ha) as [H | H]; trivial.
        symmetry in H. contradiction.
  - right. apply Qzero_neq in Eb.
    assert (Hb' : 0 < b).
    { destruct (Qle_lt_or_eq _ _ Hb) as [H | H]; trivial.
      symmetry in H. contradiction. }
    set (q := Qred (a / b)).
    assert (Hq : 0 <= q).
    { unfold q. rewrite Qred_correct. apply Qle_shift_div_l; trivial.
      now rewrite Qmult_0_l. }
    set (y := Qred (inject_Z 1 + q)).
    assert (Hy : 1 <= y).
    { unfold y. rewrite Qred_correct. change (inject_Z 1) with 1. lra. }
    assert (Ey : Qzero y = false).
    { apply Qzero_neq. intros E. rewrite E in Hy. now apply Hy. }
    set (z := Qred (inject_Z 100 / y)).
    assert (Hz : 0 <= z /\ z <= 100).
    { unfold z. rewrite Qred_correct. change (inject_Z 100) with 100.
      split.
      - apply Qle_shift_div_l; lra.
      - apply Qle_shift_div_r; lra. }
    assert (E : rsi_of_rs (Fin a / Fin b)%num
                = Fin (Qred (inject_Z 100 - z))).
    { unfold rsi_of_rs, ndiv at 2.
      destruct (Qzero b) eqn:Eb'.
      - apply Qzero_eq in Eb'. contradiction.
      - unfold fin at 1. fold q. unfold lit, nadd, fin. fold y.
        unfold ndiv. rewrite Ey. unfold fin. fold z. reflexivity. }
    rewrite E. unfold lit, nle. rewrite !negb_true_iff, !Qltb_ge.
    rewrite !Qred_correct.
    change (inject_Z 100) with 100. change (inject_Z 0) with 0.
    split; lra.
Qed.

Lemma zero_nonneg x : zero x -> nonneg x.
Proof.
  unfold zero. destruct x as [|s|a]; simpl; try contradiction.
  intros H. exists a. split; trivial. rewrite H. apply Qle_refl.
Qed.

Lemma diff_loop_flat c prev vals :
  prev == c -> Forall (fun x => x == c) vals ->
  Forall zero (diff_loop prev vals).
Proof.
  intros Hp H. revert prev Hp.
  induction H as [|x vals Hx _ IH]; intros prev Hp; simpl; constructor.
  - unfold zero, fin, lit, num_eq. rewrite Qred_correct, Hx, Hp.
    change (inject_Z 0) with 0. ring.
  - now apply IH.
Qed.

Lemma delta_flat c df :
  flat_price c df -> Forall (fun d => d = NaN \/ zero d) (delta df).
Proof.
  unfold flat_price, delta, close_column. intros H.
  destruct df as [|b df]; simpl; constructor; auto.
  inversion H as [|b' df' Hb Hdf]; subst.
  apply (Forall_impl _ (P := zero)); auto.
  apply (diff_loop_flat c); trivial.
  apply Forall_map. exact Hdf.
Qed.

Lemma zero_not_positive d : d = NaN \/ zero d -> positive d = false.
Proof.
  intros [-> | H]; trivial. unfold zero in H.
  destruct d as [|s|a]; simpl in H; try contradiction.
  unfold positive, ngt, lit. simpl. apply Qltb_ge. rewrite H.
  apply Qle_refl.
Qed.

Lemma zero_not_negative d : d = NaN \/ zero d -> negative d = false.
Proof.
  intros [-> | H]; trivial. unfold zero in H.
  destruct d as [|s|a]; simpl in H; try contradiction.
  unfold negative, lit. simpl. apply Qltb_ge. rewrite H.
  apply Qle_refl.
Qed.

Lemma gain_flat c df : flat_price c df -> Forall zero (gain df).
Proof.
  intros H. unfold gain, where_. apply Forall_map.
  apply (Forall_impl _ (P := fun d => d = NaN \/ zero d)).
  - intros d Hd. rewrite (zero_not_positive d Hd). apply num_eq_refl.
  - now apply (delta_flat c).
Qed.

Lemma loss_flat c df : flat_price c df -> Forall zero (loss df).
Proof.
  intros H. unfold loss, where_. rewrite map_map. apply Forall_map.
  apply (Forall_impl _ (P := fun d => d = NaN \/ zero d)).
  - intros d Hd. rewrite (zero_not_negative d Hd). reflexivity.
  - now apply (delta_flat c).
Qed.

Lemma RSI_flat c df i : flat_price c df -> cell (RSI_column df) i = NaN.
Proof.
  intros H. rewrite cell_RSI. unfold avg_gain, avg_loss.
  destruct (cell_rolling_mean 14 (gain df) i) as [-> | ->];
    [apply rsi_of_nan_l |].
  destruct (cell_rolling_mean 14 (loss df) i) as [-> | ->];
    [apply rsi_of_nan_r |].
  apply rsi_zero_zero; apply mean_zero, Forall_window.
  - now apply (loss_flat c).
  - now apply (gain_flat c).
Qed.

(** C2 (as amended).  For every history and every position, the
    oscillator is absent or lies in [0, 100]; where the trailing 14-bar
    average loss is 0 and the average gain is positive it equals 100;
    where both averages are 0 it is absent, and so it is at every position
    of a flat-price history. *)
Theorem rsi_range df i :
  (cell (RSI_column df) i = NaN
   \/ ((lit 0 <=? cell (RSI_column df) i)%num = true
       /\ (cell (RSI_column df) i <=? lit 100)%num = true))
  /\ (zero (cell (avg_loss df) i) -> lit 0 <n cell (avg_gain df) i ->
      cell (RSI_column df) i = lit 100)
  /\ (zero (cell (avg_loss df) i) -> zero (cell (avg_gain df) i) ->
      cell (RSI_column df) i = NaN)
  /\ (forall c, flat_price c df -> cell (RSI_column df) i = NaN)
  /\ (forall row, nth_error (calculate_indicators df) i = Some row ->
      RSI row = cell (RSI_column df) i).
Proof.
  split; [| split; [| split; [| split]]].
  - rewrite cell_RSI.
    destruct (cell_avg_gain df i) as [-> | Hg]; [left; reflexivity |].
    destruct (cell_avg_loss df i) as [-> | Hl];
      [left; apply rsi_of_nan_r |].
    now apply rsi_in_range.
  - intros Hl Hg. rewrite cell_RSI. now apply rsi_zero_loss.
  - intros Hl Hg. rewrite cell_RSI. now apply rsi_zero_zero.
  - intros c H. now apply (RSI_flat c).
  - intros row H. apply calculate_indicators_row_inv in H.
    destruct H as (_ & ->). reflexivity.
Qed.

(** C2 as first stated fails: at the last position of a flat 220-bar
    history the trailing average loss is 0 and the oscillator is absent,
    not 100. *)
Lemma flat_history_rsi_absent :
  zero (cell (avg_loss flat_220) 219)
  /\ cell (RSI_column flat_220) 219 = NaN
  /\ ~ cell (RSI_column flat_220) 219 =n= lit 100
  /\ exists row,
       nth_error (calculate_indicators flat_220) 219 = Some row
       /\ RSI row = NaN.
Proof.
  assert (E : cell (RSI_column flat_220) 219 = NaN)
    by (vm_compute; reflexivity).
  split; [| split; [| split]].
  - unfold zero. vm_compute. reflexivity.
  - exact E.
  - rewrite E. simpl. tauto.
  - eexists. split; vm_compute; reflexivity.
Qed.

(** ** The properties on the sample histories *)

(** Two symbols with the same score keep the order of the universe behind
    the stronger one; a universe without a passing symbol gives the empty
    list. *)
Lemma run_scan_ranked_witness :
  map (fun r => (symbol r, score r))
      (run_scan_on ranked_source ["AAA"; "BBB"; "CCC"; "DDD"]%string)
  = [("BBB", Fin 115); ("AAA", Fin 107); ("CCC", Fin 107)]%string
  /\ StronglySorted score_ge
       (run_scan_on ranked_source ["AAA"; "BBB"; "CCC"; "DDD"]%string)
  /\ run_scan_on ranked_source ["DDD"; "DDD"]%string = [].
Proof.
  split; [vm_compute; reflexivity | split].
  - apply (run_scan_ranked ranked_source
             ["AAA"; "BBB"; "CCC"; "DDD"]%string).
  - apply (run_scan_ranked ranked_source ["DDD"; "DDD"]%string).
    repeat constructor.
Defined.

(** The oscillator columns at the last row of the breakout history. *)
Lemma macd_columns_witness :
  is_ema 12 (map close breakout_200) (ema12 breakout_200)
  /\ MACD_Line breakout_curr
     = (Fin (nth 199 (ema12 breakout_200) 0)
        - Fin (nth 199 (ema26 breakout_200) 0))%num
  /\ MACD_Hist breakout_curr
     = (MACD_Line breakout_curr - Signal_Line breakout_curr)%num.
Proof.
  destruct (macd_columns breakout_200) as (H12 & _ & _ & Hrow).
  split; [exact H12 |].
  assert (E : nth_error (calculate_indicators breakout_200) 199
              = Some breakout_curr) by (vm_compute; reflexivity).
  destruct (Hrow 199%nat breakout_curr E) as (Hm & _ & _ & Hh).
  split; [exact Hm | exact Hh].
Defined.

(** The oscillator of the breakout history lies in the range. *)
Lemma rsi_range_witness :
  (lit 0 <=? cell (RSI_column breakout_200) 199)%num = true
  /\ (cell (RSI_column breakout_200) 199 <=? lit 100)%num = true.
Proof.
  destruct (rsi_range breakout_200 199) as ([H | H] & _).
  - exfalso. vm_compute in H. discriminate.
  - exact H.
Defined.

(** ** Moving averages by position *)

Lemma skipn_cons_nth {A : Type} (d : A) a (s : list A) :
  (a < length s)%nat -> skipn a s = nth a s d :: skipn (S a) s.
Proof.
  revert a. induction s as [|x s IH]; intros a Ha; simpl in Ha; [lia |].
  destruct a as [|a]; trivial.
  change (skipn (S a) (x :: s)) with (skipn a s).
  change (nth (S a) (x :: s) d) with (nth a s d).
  rewrite (IH a) by lia. reflexivity.
Qed.

Lemma firstn_skipn_seq {A : Type} (d : A) w :
  forall a (s : list A), (a + w <= length s)%nat ->
    firstn w (skipn a s) = map (fun j => nth j s d) (seq a w).
Proof.
  induction w as [|w IH]; intros a s H; trivial.
  rewrite (skipn_cons_nth d) by lia. cbn [firstn seq map].
  now rewrite IH by lia.
Qed.

Lemma window_at_seq {A : Type} (d : A) w i (s : list A) :
  (w <= S i)%nat -> (i < length s)%nat ->
  window_at w i s = map (fun j => nth j s d) (seq (S i - w) w).
Proof. intros Hw Hi. unfold window_at. apply firstn_skipn_seq. lia. Qed.

Lemma finite_values_series qs : finite_values (series qs) = Some qs.
Proof.
  unfold series. induction qs as [|q qs IH]; trivial.
  cbn [map finite_values]. now rewrite IH.
Qed.

Lemma mean_window_series w i l :
  (w <= S i)%nat -> (i < length l)%nat ->
  mean (window_at w i (series l)) = fin (trailing_mean l w i).
Proof.
  intros Hw Hi.
  assert (E : window_at w i (series l)
              = series (map (fun j => nth j l 0) (seq (S i - w) w))).
  { rewrite (window_at_seq NaN) by (unfold series; now rewrite ?length_map).
    unfold series. rewrite map_map. apply map_ext_in.
    intros j Hj. apply in_seq in Hj.
    rewrite (nth_indep _ NaN (Fin 0)) by (rewrite length_map; lia).
    apply map_nth. }
  unfold mean. rewrite E, finite_values_series.
  now rewrite length_map, length_seq.
Qed.

(** A rolling mean of a finite series, position by position. *)
Lemma cell_rolling_series w l i :
  (i < length l)%nat ->
  cell (rolling_mean w (series l)) i = window_value l w i.
Proof.
  intros Hi.
  assert (E : nth_error (rolling_mean w (series l)) i
              = Some (if (S i <? w)%nat then NaN
                      else mean (window_at w i (series l)))).
  { unfold rolling_mean. rewrite nth_error_map, nth_error_seq.
    unfold series. rewrite length_map.
    apply Nat.ltb_lt in Hi. now rewrite Hi. }
  unfold cell. rewrite (nth_error_nth _ _ NaN E). unfold window_value.
  destruct (S i <? w)%nat eqn:Ew; trivial.
  apply Nat.ltb_ge in Ew. apply mean_window_series; lia.
Qed.

Lemma window_value_absent l w i :
  window_value l w i = NaN <-> (S i < w)%nat.
Proof.
  unfold window_value. destruct (S i <? w)%nat eqn:E.
  - apply Nat.ltb_lt in E. tauto.
  - apply Nat.ltb_ge in E. split; [discriminate | lia].
Qed.

Lemma row_averages df i row :
  nth_error (calculate_indicators df) i = Some row ->
  SMA_50 row = window_value (map close df) 50 i
  /\ SMA_150 row = window_value (map close df) 150 i
  /\ SMA_200 row = window_value (map close df) 200 i
  /\ Vol_SMA row = window_value (map volume df) 20 i.
Proof.
  intros H. apply calculate_indicators_row_inv in H.
  destruct H as (Hi & ->). unfold row_at, SMA_column, Vol_SMA_column.
  cbn [SMA_50 SMA_150 SMA_200 Vol_SMA].
  unfold close_column, volume_column.
  rewrite !cell_rolling_series by (now rewrite length_map). tauto.
Qed.



Lemma nth_map_nth_error {A : Type} (f : A -> Q) (l : list A) j :
  nth j (map f l) 0
  = match nth_error l j with Some x => f x | None => 0 end.
Proof.
  revert j. induction l as [|x l IH]; intros [|j]; trivial. apply IH.
Qed.

Lemma trailing_mean_same_bars (f : Bar -> Q) df1 df2 a w i :
  same_bars df1 df2 a i -> (a <= S i - w)%nat -> (w <= S i)%nat ->
  trailing_mean (map f df1) w i = trailing_mean (map f df2) w i.
Proof.
  intros H Ha Hw. unfold trailing_mean, trailing_sum. do 2 f_equal.
  apply map_ext_in. intros j Hj. apply in_seq in Hj.
  rewrite !nth_map_nth_error, (H j) by lia. reflexivity.
Qed.

Lemma window_value_same_bars (f : Bar -> Q) df1 df2 a w i :
  same_bars df1 df2 a i -> (a <= S i - w)%nat ->
  window_value (map f df1) w i = window_value (map f df2) w i.
Proof.
  intros H Ha. unfold window_value.
  destruct (S i <? w)%nat eqn:E; trivial. apply Nat.ltb_ge in E.
  now rewrite (trailing_mean_same_bars f df1 df2 a w i).
Qed.

(** X2.  The moving averages of a row read the bars of their window and
    no others: two histories that hold the same bars at the positions
    [i - 199] to [i] have the same four averages at row [i], whatever the
    bars before. *)
Theorem moving_average_local df1 df2 i row1 row2 :
  nth_error (calculate_indicators df1) i = Some row1 ->
  nth_error (calculate_indicators df2) i = Some row2 ->
  same_bars df1 df2 (S i - 200) i ->
  SMA_50 row1 = SMA_50 row2 /\ SMA_150 row1 = SMA_150 row2
  /\ SMA_200 row1 = SMA_200 row2 /\ Vol_SMA row1 = Vol_SMA row2.
Proof.
  intros H1 H2 Hs.
  destruct (row_averages df1 i row1 H1) as (-> & -> & -> & ->).
  destruct (row_averages df2 i row2 H2) as (-> & -> & -> & ->).
  repeat split;
    apply (window_value_same_bars _ df1 df2 (S i - 200)); trivial; lia.
Qed.

(** Two histories of 201 bars that differ in the oldest bar only. *)
Lemma moving_average_local_witness :
  exists row1 row2,
    nth_error (calculate_indicators older_a) 200 = Some row1
    /\ nth_error (calculate_indicators older_b) 200 = Some row2
    /\ SMA_200 row1 = SMA_200 row2 /\ Vol_SMA row1 = Vol_SMA row2.
Proof.
  assert (E1 : exists r, nth_error (calculate_indicators older_a) 200
                         = Some r) by (eexists; vm_compute; reflexivity).
  assert (E2 : exists r, nth_error (calculate_indicators older_b) 200
                         = Some r) by (eexists; vm_compute; reflexivity).
  destruct E1 as (row1 & H1). destruct E2 as (row2 & H2).
  exists row1, row2. split; [exact H1 | split; [exact H2 |]].
  assert (Hs : same_bars older_a older_b (201 - 200) 200).
  { intros [|j] Hj; [lia | reflexivity]. }
  destruct (moving_average_local older_a older_b 200 row1 row2 H1 H2 Hs)
    as (_ & _ & H200 & H20).
  split; [exact H200 | exact H20].
Defined.







(** X4.  With fewer than 200 bars the 200-bar average is absent at every
    row of the augmented frame, so the trend rule fails at every row: the
    length guard of the analyzer rejects nothing the rules would pass. *)
Theorem short_history_no_trend df row :
  (length df < 200)%nat -> In row (calculate_indicators df) ->
  SMA_200 row = NaN /\ trend_strong row = false.
Proof.
  intros Hlen Hin. apply In_nth_error in Hin. destruct Hin as (i & Hi).
  destruct (calculate_indicators_row_inv _ _ _ Hi) as (Hlt & _).
  destruct (row_averages _ _ _ Hi) as (_ & _ & E200 & _).
  assert (E : SMA_200 row = NaN)
    by (rewrite E200; apply window_value_absent; lia).
  split; trivial. unfold trend_strong, ngt. rewrite E.
  destruct (SMA_150 row); simpl; now rewrite andb_false_r.
Qed.

(** Every row of a flat history of 199 bars. *)
Lemma short_history_no_trend_witness :
  Forall (fun row => SMA_200 row = NaN /\ trend_strong row = false)
    (calculate_indicators (flat 199 10 100)).
Proof.
  apply Forall_forall. intros row Hin.
  apply (short_history_no_trend (flat 199 10 100) row); trivial.
  apply Nat.ltb_lt. vm_compute. reflexivity.
Defined.

(** ** More on the momentum oscillator *)

Lemma Qred_zero q : q == 0 -> Qred q = 0.
Proof. intros H. now rewrite (Qred_complete q 0 H). Qed.

Lemma nth_ewm_mean_0 span vals : nth 0 (ewm_mean span vals) 0 = nth 0 vals 0.
Proof. now destruct vals. Qed.

Lemma nth_MACD_Line df i :
  (i < length df)%nat ->
  nth i (MACD_Line_column df) 0
  = Qred (nth i (ema12 df) 0 - nth i (ema26 df) 0).
Proof.
  intros Hi. unfold MACD_Line_column.
  now rewrite (nth_zip_with _ _ _ _ _ 0 0)
    by (now rewrite ?length_ema12, ?length_ema26).
Qed.

Lemma nth_MACD_Hist df i :
  (i < length df)%nat ->
  nth i (MACD_Hist_column df) 0
  = Qred (nth i (MACD_Line_column df) 0 - nth i (Signal_Line_column df) 0).
Proof.
  intros Hi. unfold MACD_Hist_column.
  now rewrite (nth_zip_with _ _ _ _ _ 0 0)
    by (now rewrite ?length_MACD_Line, ?length_Signal_Line).
Qed.

Lemma row_oscillator df i row :
  nth_error (calculate_indicators df) i = Some row ->
  MACD_Line row = Fin (nth i (MACD_Line_column df) 0)
  /\ Signal_Line row = Fin (nth i (Signal_Line_column df) 0)
  /\ MACD_Hist row = Fin (nth i (MACD_Hist_column df) 0).
Proof.
  intros H. apply calculate_indicators_row_inv in H.
  destruct H as (Hi & ->). unfold row_at.
  cbn [MACD_Line Signal_Line MACD_Hist].
  now rewrite !cell_series
    by (now rewrite ?length_MACD_Line, ?length_Signal_Line,
          ?length_MACD_Hist).
Qed.

(** X5.  At the first row of every augmented frame the MACD line, the
    signal line and the histogram are zero: both averages start from the
    first close. *)
Theorem first_row_oscillator_zero df row :
  nth_error (calculate_indicators df) 0 = Some row ->
  MACD_Line row = lit 0 /\ Signal_Line row = lit 0
  /\ MACD_Hist row = lit 0.
Proof.
  intros H. destruct (row_oscillator df 0 row H) as (-> & -> & ->).
  apply calculate_indicators_row_inv in H. destruct H as (Hi & _).
  assert (Em : nth 0 (MACD_Line_column df) 0 = 0).
  { rewrite nth_MACD_Line by trivial. unfold ema12, ema26.
    rewrite !nth_ewm_mean_0. apply Qred_zero. ring. }
  assert (Es : nth 0 (Signal_Line_column df) 0 = 0).
  { unfold Signal_Line_column. now rewrite nth_ewm_mean_0. }
  assert (Eh : nth 0 (MACD_Hist_column df) 0 = 0).
  { rewrite nth_MACD_Hist, Em, Es by trivial. reflexivity. }
  rewrite Em, Es, Eh. repeat split.
Qed.

(** The first row of the breakout history. *)
Lemma first_row_oscillator_zero_witness :
  exists row,
    nth_error (calculate_indicators breakout_200) 0 = Some row
    /\ MACD_Line row = lit 0 /\ Signal_Line row = lit 0
    /\ MACD_Hist row = lit 0.
Proof.
  assert (E : exists r, nth_error (calculate_indicators breakout_200) 0
                        = Some r) by (eexists; vm_compute; reflexivity).
  destruct E as (row & H). exists row. split; [exact H |].
  exact (first_row_oscillator_zero breakout_200 row H).
Defined.

Lemma Signal_Line_step df i :
  (S i < length df)%nat ->
  nth (S i) (Signal_Line_column df) 0
  == nth (S i) (MACD_Line_column df) 0 * (1 # 5)
     + nth i (Signal_Line_column df) 0 * (4 # 5).
Proof.
  intros Hi.
  assert (E : is_ema 9 (MACD_Line_column df) (Signal_Line_column df))
    by (apply ewm_mean_is_ema; reflexivity).
  destruct E as (_ & _ & E). rewrite E by (now rewrite length_MACD_Line).
  assert (K : smoothing 9 == 1 # 5) by reflexivity.
  rewrite K. ring.
Qed.

Lemma MACD_Hist_step df i :
  (S i < length df)%nat ->
  nth (S i) (MACD_Hist_column df) 0
  == (4 # 5) * (nth (S i) (MACD_Line_column df) 0
                - nth i (Signal_Line_column df) 0).
Proof.
  intros Hi. rewrite nth_MACD_Hist, Qred_correct by trivial.
  rewrite (Signal_Line_step df i Hi). ring.
Qed.

(** X6.  From the second row on, the histogram is four fifths of the
    distance between the MACD line and the signal line of the row before;
    so it is positive exactly when the line is above the previous
    signal. *)
Theorem histogram_against_previous_signal df i prev curr :
  nth_error (calculate_indicators df) i = Some prev ->
  nth_error (calculate_indicators df) (S i) = Some curr ->
  (exists m s h,
     MACD_Line curr = Fin m /\ Signal_Line prev = Fin s
     /\ MACD_Hist curr = Fin h /\ h == (4 # 5) * (m - s))
  /\ (lit 0 <n MACD_Hist curr <-> Signal_Line prev <n MACD_Line curr).
Proof.
  intros Hp Hc.
  destruct (row_oscillator df i prev Hp) as (_ & Es & _).
  destruct (row_oscillator df (S i) curr Hc) as (Em & _ & Eh).
  apply calculate_indicators_row_inv in Hc. destruct Hc as (Hi & _).
  pose proof (MACD_Hist_step df i Hi) as E.
  rewrite Es, Em, Eh. split.
  - do 3 eexists. repeat split. exact E.
  - split; intros H; inversion H as [a b Hlt | | |]; subst; constructor.
    + change (inject_Z 0) with 0 in Hlt. rewrite E in Hlt. lra.
    + change (inject_Z 0) with 0. rewrite E. lra.
Qed.

(** The last two rows of the breakout history. *)
Lemma histogram_against_previous_signal_witness :
  lit 0 <n MACD_Hist breakout_curr
  /\ Signal_Line breakout_prev <n MACD_Line breakout_curr.
Proof.
  assert (Hp : nth_error (calculate_indicators breakout_200) 198
               = Some breakout_prev) by (vm_compute; reflexivity).
  assert (Hc : nth_error (calculate_indicators breakout_200) 199
               = Some breakout_curr) by (vm_compute; reflexivity).
  destruct (histogram_against_previous_signal breakout_200 198
              breakout_prev breakout_curr Hp Hc) as (_ & H).
  assert (H0 : lit 0 <n MACD_Hist breakout_curr)
    by (apply nlt_spec; vm_compute; reflexivity).
  split; [exact H0 | exact (proj1 H H0)].
Defined.

Lemma ewm_step_within a lo hi w x :
  0 <= a -> a <= 1 -> within lo hi w -> within lo hi x ->
  within lo hi (Qred ((1 - a) * w + a * x)).
Proof.
  unfold within. intros Ha0 Ha1 (Hw1 & Hw2) (Hx1 & Hx2).
  rewrite Qred_correct. split; nra.
Qed.

Lemma ewm_loop_within a lo hi vals :
  0 <= a -> a <= 1 ->
  forall w, within lo hi w -> Forall (within lo hi) vals ->
    Forall (within lo hi) (ewm_loop a w vals).
Proof.
  intros Ha0 Ha1. induction vals as [|x vals IH]; intros w Hw Hv; simpl.
  - constructor.
  - inversion Hv as [|x' vals' Hx Hvals]; subst.
    assert (Hs : within lo hi (Qred ((1 - a) * w + a * x)))
      by (now apply ewm_step_within).
    constructor; trivial. now apply IH.
Qed.

Lemma ewm_mean_within span lo hi vals :
  0 <= alpha span -> alpha span <= 1 ->
  Forall (within lo hi) vals -> Forall (within lo hi) (ewm_mean span vals).
Proof.
  intros Ha0 Ha1 Hv. destruct vals as [|x vals]; simpl; trivial.
  inversion Hv; subst. constructor; trivial.
  now apply ewm_loop_within.
Qed.

Lemma alpha_unit span :
  (1 <= span)%Z -> 0 <= alpha span /\ alpha span <= 1.
Proof.
  intros H. unfold alpha.
  assert (Hs : 1 <= inject_Z span)
    by (change 1 with (inject_Z 1); now rewrite <- Zle_Qle).
  split.
  - apply Qle_shift_div_l; lra.
  - apply Qle_shift_div_r; lra.
Qed.

Lemma Forall_zip_with {A B C : Type} (f : A -> B -> C)
  (P : A -> Prop) (R : B -> Prop) (S : C -> Prop) s t :
  (forall x y, P x -> R y -> S (f x y)) ->
  Forall P s -> Forall R t -> Forall S (zip_with f s t).
Proof.
  intros Hf Hs. revert t. induction Hs as [|x s Hx _ IH]; intros t Ht.
  - constructor.
  - destruct Ht as [|y t Hy Ht]; simpl; constructor; auto.
Qed.

Lemma Qsub_red_within lo hi x y :
  within lo hi x -> within lo hi y ->
  within (- (hi - lo)) (hi - lo) (Qsub_red x y).
Proof.
  unfold within, Qsub_red. intros (Hx1 & Hx2) (Hy1 & Hy2).
  rewrite Qred_correct. split; lra.
Qed.

Lemma Qsub_red_within_twice r x y :
  within (- r) r x -> within (- r) r y ->
  within (- (2 * r)) (2 * r) (Qsub_red x y).
Proof.
  unfold within, Qsub_red. intros (Hx1 & Hx2) (Hy1 & Hy2).
  rewrite Qred_correct. split; lra.
Qed.

(** X7.  The oscillator stays inside the price range.  When every close
    of a history lies between [lo] and [hi], both exponential averages
    lie between [lo] and [hi] at every row, the MACD line and the signal
    line are at most [hi - lo] in absolute value and the histogram at
    most twice that. *)
Theorem oscillator_bounded df lo hi :
  Forall (fun b => within lo hi (close b)) df ->
  Forall (within lo hi) (ema12 df)
  /\ Forall (within lo hi) (ema26 df)
  /\ forall row, In row (calculate_indicators df) ->
       exists m s h,
         MACD_Line row = Fin m /\ Signal_Line row = Fin s
         /\ MACD_Hist row = Fin h
         /\ within (- (hi - lo)) (hi - lo) m
         /\ within (- (hi - lo)) (hi - lo) s
         /\ within (- (2 * (hi - lo))) (2 * (hi - lo)) h.
Proof.
  intros H.
  assert (Hc : Forall (within lo hi) (close_column df)).
  { unfold close_column. apply Forall_map. exact H. }
  assert (H12 : Forall (within lo hi) (ema12 df)).
  { apply ewm_mean_within; trivial; apply (alpha_unit 12); lia. }
  assert (H26 : Forall (within lo hi) (ema26 df)).
  { apply ewm_mean_within; trivial; apply (alpha_unit 26); lia. }
  assert (Hm : Forall (within (- (hi - lo)) (hi - lo))
                 (MACD_Line_column df)).
  { unfold MACD_Line_column.
    apply (Forall_zip_with _ (within lo hi) (within lo hi)); trivial.
    intros x y. apply Qsub_red_within. }
  assert (Hs : Forall (within (- (hi - lo)) (hi - lo))
                 (Signal_Line_column df)).
  { apply ewm_mean_within; trivial; apply (alpha_unit 9); lia. }
  assert (Hh : Forall (within (- (2 * (hi - lo))) (2 * (hi - lo)))
                 (MACD_Hist_column df)).
  { unfold MACD_Hist_column.
    apply (Forall_zip_with _ (within (- (hi - lo)) (hi - lo))
             (within (- (hi - lo)) (hi - lo))); trivial.
    intros x y. apply Qsub_red_within_twice. }
  split; [exact H12 | split; [exact H26 |]].
  intros row Hin. apply In_nth_error in Hin. destruct Hin as (i & Hi).
  destruct (row_oscillator df i row Hi) as (Em & Es & Eh).
  apply calculate_indicators_row_inv in Hi. destruct Hi as (Hi & _).
  do 3 eexists. split; [exact Em | split; [exact Es | split; [exact Eh |]]].
  rewrite Forall_forall in Hm, Hs, Hh.
  split; [| split].
  - apply Hm, nth_In. now rewrite length_MACD_Line.
  - apply Hs, nth_In. now rewrite length_Signal_Line.
  - apply Hh, nth_In. now rewrite length_MACD_Hist.
Qed.

(** The breakout history moves between 9 and 13. *)
Lemma oscillator_bounded_witness :
  exists m,
    MACD_Line breakout_curr = Fin m /\ within (- (13 - 9)) (13 - 9) m.
Proof.
  assert (H : Forall (fun b => within 9 13 (close b)) breakout_200).
  { apply Forall_forall. intros b Hb. unfold breakout_200, flat in Hb.
    apply in_app_or in Hb. destruct Hb as [Hb | Hb].
    - apply repeat_spec in Hb. subst b. split; discriminate.
    - destruct Hb as [<- | [<- | []]]; split; discriminate. }
  destruct (oscillator_bounded breakout_200 9 13 H) as (_ & _ & Hrow).
  assert (Hin : In breakout_curr (calculate_indicators breakout_200)).
  { apply (nth_error_In _ 199). vm_compute. reflexivity. }
  destruct (Hrow breakout_curr Hin) as (m & s & h & Em & _ & _ & Hm & _).
  exists m. split; assumption.
Defined.

(** ** More on the relative-strength oscillator *)

Lemma RSI_row df i row :
  nth_error (calculate_indicators df) i = Some row ->
  RSI row = cell (RSI_column df) i.
Proof.
  intros H. apply calculate_indicators_row_inv in H.
  now destruct H as (_ & ->).
Qed.

(** X8.  A history whose close never changes yields no signal, whatever
    its length and its volumes: the analyzer returns absent, and raises
    nothing. *)
Theorem flat_history_absent (yf_download : source) ticker df c :
  yf_download ticker = Ret df -> flat_price c df ->
  analyze_body yf_download ticker = Ret None
  /\ analyze_stock yf_download ticker = None.
Proof.
  intros Hsrc Hflat.
  assert (E : analyze_body yf_download ticker = Ret None).
  { destruct (Nat.lt_ge_cases (length df) 200) as [Hlen | Hlen].
    - unfold analyze_body. rewrite Hsrc. simpl.
      apply Nat.ltb_lt in Hlen. now rewrite Hlen, orb_true_r.
    - rewrite (analyze_body_evaluate _ _ df Hsrc Hlen).
      apply evaluate_absent. unfold indicator_absent.
      do 6 right. left. unfold row_at. cbn [RSI].
      now apply (RSI_flat c). }
  split; trivial. unfold analyze_stock. now rewrite E.
Qed.

Lemma flat_price_flat n c v : flat_price c (flat n c v).
Proof.
  unfold flat_price, flat. apply Forall_forall. intros b Hb.
  apply repeat_spec in Hb. subst b. reflexivity.
Qed.

(** A flat history of 250 bars. *)
Lemma flat_history_absent_witness :
  analyze_body (const_source (flat 250 10 100)) "NVDA" = Ret None
  /\ analyze_stock (const_source (flat 250 10 100)) "NVDA" = None.
Proof.
  apply (flat_history_absent (const_source (flat 250 10 100)) "NVDA"
           (flat 250 10 100) 10).
  - reflexivity.
  - apply flat_price_flat.
Defined.

(** The oscillator as the share of the gains. *)
Lemma rsi_closed_form a b :
  0 <= a -> 0 < b ->
  exists r, rsi_of_rs (Fin a / Fin b)%num = Fin r
            /\ r == 100 * a / (a + b).
Proof.
  intros Ha Hb.
  assert (Eb : Qzero b = false).
  { apply Qzero_neq. intros E. rewrite E in Hb.
    exact (Qlt_irrefl _ Hb). }
  set (q := Qred (a / b)).
  assert (Eq : q == a / b) by apply Qred_correct.
  assert (Hq : 0 <= q).
  { rewrite Eq. apply Qle_shift_div_l; trivial. now rewrite Qmult_0_l. }
  set (y := Qred (inject_Z 1 + q)).
  assert (Ey : y == 1 + a / b).
  { unfold y. rewrite Qred_correct, Eq. reflexivity. }
  assert (Hy : 1 <= y).
  { unfold y. rewrite Qred_correct. change (inject_Z 1) with 1. lra. }
  assert (Zy : Qzero y = false).
  { apply Qzero_neq. intros E. rewrite E in Hy. now apply Hy. }
  set (z := Qred (inject_Z 100 / y)).
  exists (Qred (inject_Z 100 - z)). split.
  - unfold rsi_of_rs, ndiv at 2. rewrite Eb.
    unfold fin at 1. fold q. unfold lit, nadd, fin. fold y.
    unfold ndiv. rewrite Zy. unfold fin. fold z. reflexivity.
  - rewrite Qred_correct. unfold z. rewrite Qred_correct, Ey.
    change (inject_Z 100) with 100. field. split; lra.
Qed.

Lemma rsi_band_ratio a b :
  0 <= a -> 0 <= b ->
  (lit 50 <n rsi_of_rs (Fin a / Fin b)%num <-> b < a)
  /\ (rsi_of_rs (Fin a / Fin b)%num <n lit 85 <-> 3 * a < 17 * b).
Proof.
  intros Ha Hb. destruct (Qle_lt_or_eq _ _ Hb) as [Hb' | Hb'].
  - destruct (rsi_closed_form a b Ha Hb') as (r & -> & Er).
    assert (Hs : 0 < a + b) by lra.
    assert (Em : r * (a + b) == 100 * a).
    { rewrite Er. field. lra. }
    split; split; intros H.
    + inversion H as [x y Hlt | | |]; subst.
      change (inject_Z 50) with 50 in Hlt.
      assert (H1 : 50 * (a + b) < r * (a + b))
        by (apply Qmult_lt_r; trivial).
      rewrite Em in H1. lra.
    + constructor. change (inject_Z 50) with 50.
      apply (Qmult_lt_r _ _ (a + b)); trivial. rewrite Em. lra.
    + inversion H as [x y Hlt | | |]; subst.
      change (inject_Z 85) with 85 in Hlt.
      assert (H1 : r * (a + b) < 85 * (a + b))
        by (apply Qmult_lt_r; trivial).
      rewrite Em in H1. lra.
    + constructor. change (inject_Z 85) with 85.
      apply (Qmult_lt_r _ _ (a + b)); trivial. rewrite Em. lra.
  - assert (Zb : zero (Fin b)) by (unfold zero; simpl; now symmetry).
    destruct (Qle_lt_or_eq _ _ Ha) as [Ha' | Ha'].
    + rewrite (rsi_zero_loss (Fin a) (Fin b) Zb)
        by (constructor; exact Ha').
      split; split; intros H.
      * lra.
      * apply nlt_spec. reflexivity.
      * apply nlt_spec in H. discriminate.
      * lra.
    + assert (Za : zero (Fin a)) by (unfold zero; simpl; now symmetry).
      rewrite (rsi_zero_zero _ _ Zb Za).
      split; split; intros H; try (now inversion H); lra.
Qed.

(** X9.  At every row the strength rule is a rule on the two trailing
    14-bar averages: [50 < RSI < 85] holds exactly when both averages are
    there, the average gain exceeds the average loss and stays below
    17/3 of it; and with a positive average loss the oscillator is
    [100 * avgGain / (avgGain + avgLoss)]. *)
Theorem strength_band_ratio df i row :
  nth_error (calculate_indicators df) i = Some row ->
  (Strength_band row
   <-> exists g l,
         cell (avg_gain df) i = Fin g /\ cell (avg_loss df) i = Fin l
         /\ l < g /\ 3 * g < 17 * l)
  /\ (forall g l,
        cell (avg_gain df) i = Fin g -> cell (avg_loss df) i = Fin l ->
        0 < l ->
        exists r, RSI row = Fin r /\ r == 100 * g / (g + l)).
Proof.
  intros H. rewrite (RSI_row df i row H). unfold Strength_band.
  rewrite (RSI_row df i row H), cell_RSI. split.
  - destruct (cell_avg_gain df i) as [Eg | (g & Eg & Hg)].
    { rewrite Eg. rewrite rsi_of_nan_l. split.
      - intros (H1 & _). inversion H1.
      - intros (g & l & E & _). discriminate. }
    destruct (cell_avg_loss df i) as [El | (l & El & Hl)].
    { rewrite El. rewrite rsi_of_nan_r. split.
      - intros (H1 & _). inversion H1.
      - intros (g' & l' & _ & E & _). discriminate. }
    rewrite Eg, El.
    destruct (rsi_band_ratio g l Hg Hl) as (B50 & B85). split.
    + intros (H1 & H2). exists g, l. rewrite B50 in H1. rewrite B85 in H2.
      tauto.
    + intros (g' & l' & E1 & E2 & H1 & H2).
      injection E1 as <-. injection E2 as <-.
      rewrite B50, B85. tauto.
  - intros g l Eg El Hl. rewrite Eg, El.
    apply rsi_closed_form; trivial.
    destruct (cell_avg_gain df i) as [E | (g' & E & Hg)];
      rewrite Eg in E; [discriminate | injection E as ->; trivial].
Qed.

(** The last row of the breakout history: one gain of 4, one loss of 1. *)
Lemma strength_band_ratio_witness :
  Strength_band breakout_curr
  /\ exists r, RSI breakout_curr = Fin r /\ r == 80.
Proof.
  assert (E : nth_error (calculate_indicators breakout_200) 199
              = Some breakout_curr) by (vm_compute; reflexivity).
  destruct (strength_band_ratio breakout_200 199 breakout_curr E)
    as (Hband & Hform).
  assert (Eg : cell (avg_gain breakout_200) 199 = Fin (2 # 7))
    by (vm_compute; reflexivity).
  assert (El : cell (avg_loss breakout_200) 199 = Fin (1 # 14))
    by (vm_compute; reflexivity).
  split.
  - apply Hband. exists (2 # 7), (1 # 14).
    repeat split; trivial; reflexivity.
  - destruct (Hform (2 # 7) (1 # 14) Eg El) as (r & Er & Hr);
      [reflexivity |].
    exists r. split; trivial. rewrite Hr. reflexivity.
Defined.

Lemma nth_diff_loop vals :
  forall prev j, (j < length vals)%nat ->
    nth j (diff_loop prev vals) NaN
    = fin (nth j vals 0 - nth j (prev :: vals) 0).
Proof.
  induction vals as [|x vals IH]; intros prev j Hj; simpl in Hj; [lia |].
  destruct j as [|j]; trivial.
  change (nth (S j) (diff_loop prev (x :: vals)) NaN)
    with (nth j (diff_loop x vals) NaN).
  rewrite IH by lia. reflexivity.
Qed.

Lemma nth_diff s j :
  (S j < length s)%nat ->
  nth (S j) (diff s) NaN = fin (nth (S j) s 0 - nth j s 0).
Proof.
  destruct s as [|x0 rest]; simpl; intros Hj; [lia |].
  rewrite nth_diff_loop by lia. reflexivity.
Qed.

Lemma nth_where cond other s j :
  (j < length s)%nat ->
  nth j (where_ cond other s) NaN
  = if cond (nth j s NaN) then nth j s NaN else other.
Proof.
  intros Hj. unfold where_.
  rewrite (nth_indep _ NaN
             ((fun x => if cond x then x else other) NaN))
    by (now rewrite length_map).
  now rewrite (map_nth (fun x => if cond x then x else other)).
Qed.

Lemma length_delta df : length (delta df) = length df.
Proof. unfold delta, close_column. now rewrite length_diff, length_map. Qed.

Lemma length_gain df : length (gain df) = length df.
Proof. unfold gain, where_. now rewrite length_map, length_delta. Qed.

Lemma length_loss df : length (loss df) = length df.
Proof. unfold loss, where_. now rewrite !length_map, length_delta. Qed.

(** The gain and the loss of a bar: neither is negative, one of them is
    zero, and their difference is the change of the close. *)
Lemma gain_loss_at df j :
  (S j < length df)%nat ->
  exists g l,
    nth (S j) (gain df) NaN = Fin g /\ nth (S j) (loss df) NaN = Fin l
    /\ g - l == nth (S j) (map close df) 0 - nth j (map close df) 0.
Proof.
  intros Hj.
  set (d := Qred (nth (S j) (map close df) 0 - nth j (map close df) 0)).
  assert (Ed : nth (S j) (delta df) NaN = Fin d).
  { unfold delta, close_column. rewrite nth_diff by (now rewrite length_map).
    reflexivity. }
  assert (Dd : d == nth (S j) (map close df) 0 - nth j (map close df) 0)
    by apply Qred_correct.
  assert (Eg : nth (S j) (gain df) NaN
               = if Qltb (inject_Z 0) d then Fin d else lit 0).
  { unfold gain. rewrite nth_where by (now rewrite length_delta).
    now rewrite Ed. }
  assert (El : nth (S j) (loss df) NaN
               = if Qltb d (inject_Z 0) then fin (- d)
                 else fin (- inject_Z 0)).
  { unfold loss.
    rewrite (nth_indep _ NaN (nopp NaN))
      by (unfold where_; now rewrite !length_map, length_delta).
    rewrite map_nth, nth_where by (now rewrite length_delta).
    rewrite Ed. unfold negative. simpl nlt.
    now destruct (Qltb d (inject_Z 0)). }
  rewrite Eg, El. change (inject_Z 0) with 0.
  destruct (Qltb 0 d) eqn:Hpos, (Qltb d 0) eqn:Hneg.
  - apply Qltb_lt in Hpos, Hneg. lra.
  - exists d, (Qred (- 0)). repeat split. rewrite Qred_correct, <- Dd. ring.
  - exists 0, (Qred (- d)). repeat split. rewrite Qred_correct, <- Dd. ring.
  - apply Qltb_ge in Hpos, Hneg.
    exists 0, (Qred (- 0)). repeat split. rewrite Qred_correct, <- Dd. lra.
Qed.

(** The gains less the losses of consecutive bars add up to the change of
    the close over them. *)
Lemma gain_loss_telescope df w :
  forall a, (a + w < length df)%nat ->
    exists gs ls,
      finite_values (map (fun j => nth j (gain df) NaN) (seq (S a) w))
      = Some gs
      /\ finite_values (map (fun j => nth j (loss df) NaN) (seq (S a) w))
         = Some ls
      /\ length gs = w /\ length ls = w
      /\ Qsum gs - Qsum ls
         == nth (a + w) (map close df) 0 - nth a (map close df) 0.
Proof.
  induction w as [|w IH]; intros a Ha.
  - exists [], []. repeat split. rewrite Nat.add_0_r. simpl. ring.
  - destruct (gain_loss_at df a) as (g & l & Eg & El & Egl); [lia |].
    destruct (IH (S a)) as (gs & ls & Fg & Fl & Lg & Ll & Es); [lia |].
    exists (g :: gs), (l :: ls). cbn [seq map finite_values].
    rewrite Eg, El, Fg, Fl. cbn [length Qsum fold_right].
    repeat split; try congruence.
    fold (Qsum gs). fold (Qsum ls).
    replace (a + S w)%nat with (S a + w)%nat by lia.
    assert (X : g + Qsum gs - (l + Qsum ls)
                == (g - l) + (Qsum gs - Qsum ls)) by ring.
    rewrite X, Egl, Es. ring.
Qed.

Lemma cell_rolling_mean_at w s i :
  (i < length s)%nat -> (w <= S i)%nat ->
  cell (rolling_mean w s) i = mean (window_at w i s).
Proof.
  intros Hi Hw.
  assert (E : nth_error (rolling_mean w s) i
              = Some (if (S i <? w)%nat then NaN
                      else mean (window_at w i s))).
  { unfold rolling_mean. rewrite nth_error_map, nth_error_seq.
    apply Nat.ltb_lt in Hi. now rewrite Hi. }
  unfold cell. rewrite (nth_error_nth _ _ NaN E).
  apply Nat.ltb_ge in Hw. now rewrite Hw.
Qed.

(** Fourteen times the average gain less the average loss is the change
    of the close over fourteen bars. *)
Lemma averages_difference df i :
  (14 <= i)%nat -> (i < length df)%nat ->
  exists g l,
    cell (avg_gain df) i = Fin g /\ cell (avg_loss df) i = Fin l
    /\ 14 * (g - l)
       == nth i (map close df) 0 - nth (i - 14) (map close df) 0.
Proof.
  intros H14 Hi.
  destruct (gain_loss_telescope df 14 (i - 14))
    as (gs & ls & Fg & Fl & Lg & Ll & Es); [lia |].
  replace (S (i - 14)) with (S i - 14)%nat in Fg, Fl by lia.
  replace (i - 14 + 14)%nat with i in Es by lia.
  exists (Qred (Qsum gs / inject_Z (Z.of_nat (length gs)))),
         (Qred (Qsum ls / inject_Z (Z.of_nat (length ls)))).
  split; [| split].
  - unfold avg_gain.
    rewrite cell_rolling_mean_at by (rewrite ?length_gain; lia).
    rewrite (window_at_seq NaN) by (rewrite ?length_gain; lia).
    unfold mean. now rewrite Fg.
  - unfold avg_loss.
    rewrite cell_rolling_mean_at by (rewrite ?length_loss; lia).
    rewrite (window_at_seq NaN) by (rewrite ?length_loss; lia).
    unfold mean. now rewrite Fl.
  - rewrite !Qred_correct, Lg, Ll, <- Es.
    change (inject_Z (Z.of_nat 14)) with 14. field.
Qed.

Lemma rsi_above_50_iff_rise_aux df i row :
  (14 <= i)%nat ->
  nth_error (calculate_indicators df) i = Some row ->
  lit 50 <n RSI row ->
  nth (i - 14) (map close df) 0 < nth i (map close df) 0.
Proof.
  intros H14 H. rewrite (RSI_row df i row H), cell_RSI.
  apply calculate_indicators_row_inv in H. destruct H as (Hi & _).
  destruct (averages_difference df i H14 Hi) as (g & l & Eg & El & E).
  assert (Hg : 0 <= g).
  { destruct (cell_avg_gain df i) as [X | (g' & X & Hg)];
      rewrite Eg in X; [discriminate | injection X as ->; trivial]. }
  assert (Hl : 0 <= l).
  { destruct (cell_avg_loss df i) as [X | (l' & X & Hl)];
      rewrite El in X; [discriminate | injection X as ->; trivial]. }
  rewrite Eg, El. destruct (rsi_band_ratio g l Hg Hl) as (B50 & _).
  rewrite B50. intros X. lra.
Qed.

(** X10.  From row 14 on, the oscillator is above 50 exactly when the
    close is above the close of 14 bars before. *)
Theorem rsi_above_50_iff_rise df i row :
  (14 <= i)%nat ->
  nth_error (calculate_indicators df) i = Some row ->
  (lit 50 <n RSI row
   <-> nth (i - 14) (map close df) 0 < nth i (map close df) 0).
Proof.
  intros H14 H. rewrite (RSI_row df i row H), cell_RSI.
  apply calculate_indicators_row_inv in H. destruct H as (Hi & _).
  destruct (averages_difference df i H14 Hi) as (g & l & Eg & El & E).
  assert (Hg : 0 <= g).
  { destruct (cell_avg_gain df i) as [X | (g' & X & Hg)];
      rewrite Eg in X; [discriminate | injection X as ->; trivial]. }
  assert (Hl : 0 <= l).
  { destruct (cell_avg_loss df i) as [X | (l' & X & Hl)];
      rewrite El in X; [discriminate | injection X as ->; trivial]. }
  rewrite Eg, El. destruct (rsi_band_ratio g l Hg Hl) as (B50 & _).
  rewrite B50. split; intros X; lra.
Qed.

(** The breakout history closes at 13, up from 10 fourteen bars before. *)
Lemma rsi_above_50_iff_rise_witness :
  lit 50 <n RSI breakout_curr
  /\ nth (199 - 14) (map close breakout_200) 0
     < nth 199 (map close breakout_200) 0.
Proof.
  assert (E : nth_error (calculate_indicators breakout_200) 199
              = Some breakout_curr) by (vm_compute; reflexivity).
  assert (H14 : (14 <= 199)%nat) by lia.
  assert (Hr : nth (199 - 14) (map close breakout_200) 0
               < nth 199 (map close breakout_200) 0)
    by (vm_compute; reflexivity).
  split; [| exact Hr].
  apply (rsi_above_50_iff_rise breakout_200 199 breakout_curr H14 E).
  exact Hr.
Defined.

(** ** What a passing history looks like *)

Lemma row_bar df i row :
  nth_error (calculate_indicators df) i = Some row ->
  Close row = Fin (nth i (map close df) 0)
  /\ Volume row = Fin (nth i (map volume df) 0).
Proof.
  intros H. apply calculate_indicators_row_inv in H.
  destruct H as (Hi & ->). unfold row_at. cbn [Close Volume].
  unfold close_column, volume_column.
  now rewrite !cell_series by (now rewrite length_map).
Qed.

(** A result of the analyzer on a delivered frame: the frame has 200 bars
    or more and the result is the one of the rule set on its last two
    rows. *)
Lemma analyze_stock_some_inv (yf_download : source) ticker df r :
  yf_download ticker = Ret df ->
  analyze_stock yf_download ticker = Some r ->
  (200 <= length df)%nat
  /\ nth_error (calculate_indicators df) (length df - 1)
     = Some (row_at df (length df - 1))
  /\ nth_error (calculate_indicators df) (length df - 2)
     = Some (row_at df (length df - 2))
  /\ try_except (evaluate ticker (row_at df (length df - 1))
                   (row_at df (length df - 2))) = Some r.
Proof.
  intros Hsrc H. unfold analyze_stock in H.
  destruct (Nat.lt_ge_cases (length df) 200) as [Hlen | Hlen].
  - exfalso. unfold analyze_body in H. rewrite Hsrc in H. simpl in H.
    apply Nat.ltb_lt in Hlen. rewrite Hlen, orb_true_r in H. discriminate.
  - rewrite (analyze_body_evaluate _ _ df Hsrc Hlen) in H.
    repeat split; trivial; apply calculate_indicators_row; lia.
Qed.

Lemma fin_lt_inv a b : Fin (Qred a) <n Fin (Qred b) -> a < b.
Proof. intros H. inversion H; subst. now apply Qred_lt. Qed.

Lemma fin_lt_inv_r a b : Fin a <n Fin (Qred b) -> a < b.
Proof.
  intros H. inversion H as [x y Hlt | | |]; subst.
  now rewrite (Qred_correct b) in Hlt.
Qed.

Lemma fin_lt_inv_l a b : Fin (Qred a) <n Fin b -> a < b.
Proof.
  intros H. inversion H as [x y Hlt | | |]; subst.
  now rewrite (Qred_correct a) in Hlt.
Qed.

Lemma volume_surge_history row v tm :
  Volume row = Fin v -> Vol_SMA row = Fin (Qred tm) ->
  Volume_surge row -> (6 # 5) * tm < v.
Proof.
  intros Ev Em (vr & HV & Hvr). destruct HV as [Hpos | Hnot].
  - rewrite Ev, Em in Hvr. rewrite Em in Hpos.
    apply fin_lt_inv_r in Hpos. change (inject_Z 0) with 0 in Hpos.
    assert (Zy : Qzero (Qred tm) = false).
    { apply Qzero_neq. rewrite Qred_correct. intros X. rewrite X in Hpos.
      exact (Qlt_irrefl _ Hpos). }
    unfold ndiv in Hvr. rewrite Zy in Hvr. unfold lit_1_2, fin in Hvr.
    apply fin_lt_inv_r in Hvr.
    assert (E : v / Qred tm == v / tm) by (now rewrite Qred_correct).
    rewrite E in Hvr.
    apply (Qmult_lt_r _ _ _ Hpos) in Hvr.
    assert (X : v / tm * tm == v) by (field; lra).
    rewrite X in Hvr. exact Hvr.
  - apply nlt_spec in Hvr. discriminate.
Qed.

(** X11.  A history on which the analyzer returns a result has at least
    200 bars; its last close is above the mean of the last 50 closes,
    which is above the mean of the last 150, which is above the mean of
    the last 200; the last close is above the close of 14 bars before;
    the last volume is above 1.2 times the mean of the last 20 volumes;
    and the close before the last is not zero. *)
Theorem passing_history (yf_download : source) ticker df r :
  yf_download ticker = Ret df ->
  analyze_stock yf_download ticker = Some r ->
  (200 <= length df)%nat
  /\ trailing_mean (map close df) 50 (length df - 1)
     < nth (length df - 1) (map close df) 0
  /\ trailing_mean (map close df) 150 (length df - 1)
     < trailing_mean (map close df) 50 (length df - 1)
  /\ trailing_mean (map close df) 200 (length df - 1)
     < trailing_mean (map close df) 150 (length df - 1)
  /\ nth (length df - 15) (map close df) 0
     < nth (length df - 1) (map close df) 0
  /\ (6 # 5) * trailing_mean (map volume df) 20 (length df - 1)
     < nth (length df - 1) (map volume df) 0
  /\ ~ nth (length df - 2) (map close df) 0 == 0.
Proof.
  intros Hsrc H.
  destruct (analyze_stock_some_inv _ _ _ _ Hsrc H) as (Hlen & Ec & Ep & He).
  set (n := length df) in *.
  set (curr := row_at df (n - 1)) in *.
  set (prev := row_at df (n - 2)) in *.
  destruct (proj1 (evaluate_some_iff ticker curr prev))
    as ((Ht & _ & Hs & Hv) & Hz); [now exists r |].
  destruct (row_averages _ _ _ Ec) as (E50 & E150 & E200 & E20).
  destruct (row_bar _ _ _ Ec) as (Eclose & Evol).
  destruct (row_bar _ _ _ Ep) as (Eprev & _).
  assert (V : forall l w, (w <= 200)%nat ->
                window_value l w (n - 1) = fin (trailing_mean l w (n - 1))).
  { intros l w Hw. unfold window_value.
    assert (X : (S (n - 1) <? w)%nat = false) by (apply Nat.ltb_ge; lia).
    now rewrite X. }
  rewrite V in E50, E150, E200, E20 by lia.
  split; [exact Hlen |].
  destruct Ht as (T1 & T2 & T3).
  rewrite E50, E150, E200, Eclose in *. unfold fin in *.
  split; [| split; [| split; [| split; [| split]]]].
  - now apply fin_lt_inv_l.
  - now apply fin_lt_inv.
  - now apply fin_lt_inv.
  - destruct Hs as (H50 & _).
    replace (n - 15)%nat with (n - 1 - 14)%nat by lia.
    apply (rsi_above_50_iff_rise_aux df (n - 1) curr); trivial. lia.
  - now apply (volume_surge_history curr).
  - rewrite Eprev in Hz. exact Hz.
Qed.

(** The breakout history passes. *)
Lemma passing_history_witness :
  nth (200 - 15) (map close breakout_200) 0
  < nth (200 - 1) (map close breakout_200) 0
  /\ ~ nth (200 - 2) (map close breakout_200) 0 == 0.
Proof.
  assert (E : exists r,
             analyze_stock (const_source breakout_200) "NVDA" = Some r)
    by (eexists; vm_compute; reflexivity).
  destruct E as (r & Hr).
  destruct (passing_history (const_source breakout_200) "NVDA"
              breakout_200 r eq_refl Hr)
    as (_ & _ & _ & _ & H14 & _ & Hz).
  assert (L : length breakout_200 = 200%nat) by (vm_compute; reflexivity).
  rewrite L in H14, Hz. split; assumption.
Defined.

(** ** Bounds on the emitted record *)

Lemma round_half_even_le z q :
  q <= inject_Z z -> (round_half_even q <= z)%Z.
Proof.
  intros H.
  assert (Hf : (Qfloor q <= z)%Z).
  { pose proof (Qfloor_resp_le _ _ H) as X. now rewrite Qfloor_Z in X. }
  destruct (Z.eq_dec (Qfloor q) z) as [E | E].
  - assert (Hq : (q - inject_Z (Qfloor q) ?= 1 # 2) = Lt).
    { apply (proj1 (Qlt_alt _ _)). rewrite E. lra. }
    unfold round_half_even. cbv zeta. rewrite Hq. lia.
  - pose proof (round_half_even_floor q). lia.
Qed.

Lemma round_2_bounds a lo hi :
  inject_Z lo <= a * 100 -> a * 100 <= inject_Z hi ->
  exists q, round (Fin a) 2 = Fin q
            /\ inject_Z lo / 100 <= q /\ q <= inject_Z hi / 100.
Proof.
  intros Hlo Hhi. unfold round, fin.
  change (inject_Z (10 ^ Z.of_nat 2)) with 100.
  eexists. split; [reflexivity |]. rewrite Qred_correct.
  apply round_half_even_ge in Hlo. apply round_half_even_le in Hhi.
  rewrite Zle_Qle in Hlo, Hhi.
  split; apply Qmult_le_compat_r; trivial; discriminate.
Qed.

(** X12.  The fields of an emitted record keep the bands of the rules
    after rounding, the bounds included: the reported [rsi] lies between
    50 and 85 and the reported volume ratio is at least 1.2. *)
Theorem emitted_fields_in_band ticker curr prev r :
  try_except (evaluate ticker curr prev) = Some r ->
  (lit 50 <=? rsi r)%num = true /\ (rsi r <=? lit 85)%num = true
  /\ (lit_1_2 <=? res_vol_ratio r)%num = true.
Proof.
  intros H. apply evaluate_some in H.
  destruct H as (vr & Hvr & Hr & _ & ->).
  unfold rules in Hr. rewrite !andb_true_iff in Hr.
  destruct Hr as ((_ & Hrsi) & Hvol).
  apply rsi_check_spec in Hrsi. destruct Hrsi as (H50 & H85).
  unfold vol_check, ngt in Hvol. apply nlt_spec in Hvol.
  destruct (band_finite _ _ _ H50 H85) as (a & Ea & Ha50 & Ha85).
  cbn [rsi res_vol_ratio expected_result]. rewrite Ea.
  change (inject_Z 50) with 50 in Ha50. change (inject_Z 85) with 85 in Ha85.
  destruct (round_2_bounds a 5000 8500) as (q & -> & Hq1 & Hq2).
  { change (inject_Z 5000) with 5000. lra. }
  { change (inject_Z 8500) with 8500. lra. }
  split; [| split].
  - unfold lit, nle. apply negb_true_iff, Qltb_ge.
    apply Qle_trans with (inject_Z 5000 / 100); [discriminate | exact Hq1].
  - unfold lit, nle. apply negb_true_iff, Qltb_ge.
    apply Qle_trans with (inject_Z 8500 / 100); [exact Hq2 | discriminate].
  - destruct (above_cases _ _ Hvol) as [-> | (b & -> & Hb)]; trivial.
    unfold round, fin. change (inject_Z (10 ^ Z.of_nat 2)) with 100.
    unfold lit_1_2, nle. apply negb_true_iff, Qltb_ge.
    rewrite Qred_correct.
    assert (Hz : (120 <= round_half_even (b * 100))%Z).
    { apply round_half_even_ge. change (inject_Z 120) with 120. lra. }
    rewrite Zle_Qle in Hz. change (inject_Z 120) with 120 in Hz.
    apply Qle_shift_div_l; [reflexivity |]. lra.
Qed.

(** The record of the breakout history: rsi 80, volume ratio 2.73. *)
Lemma emitted_fields_in_band_witness :
  exists r,
    try_except (evaluate "NVDA" breakout_curr breakout_prev) = Some r
    /\ (lit 50 <=? rsi r)%num = true /\ (rsi r <=? lit 85)%num = true.
Proof.
  assert (E : exists r,
             try_except (evaluate "NVDA" breakout_curr breakout_prev)
             = Some r) by (eexists; vm_compute; reflexivity).
  destruct E as (r & Hr). exists r. split; [exact Hr |].
  destruct (emitted_fields_in_band "NVDA" breakout_curr breakout_prev r Hr)
    as (H1 & H2 & _).
  split; assumption.
Defined.

Lemma Qsum_ge_member l x :
  Forall (fun q => 0 <= q) l -> In x l -> x <= Qsum l.
Proof.
  induction 1 as [|q l Hq Hl IH]; intros Hin.
  - destruct Hin.
  - change (Qsum (q :: l)) with (q + Qsum l).
    pose proof (Qsum_nonneg l Hl) as Hs.
    destruct Hin as [-> | Hin]; [lra | specialize (IH Hin); lra].
Qed.

Lemma nth_nonneg (f : Bar -> Q) df j :
  Forall (fun b => 0 <= f b) df -> 0 <= nth j (map f df) 0.
Proof.
  intros H. rewrite nth_map_nth_error.
  destruct (nth_error df j) as [b|] eqn:E; [| apply Qle_refl].
  rewrite Forall_forall in H. apply H. now apply (nth_error_In _ j).
Qed.

Lemma trailing_mean_ge_last (f : Bar -> Q) df i :
  Forall (fun b => 0 <= f b) df -> (19 <= i)%nat ->
  nth i (map f df) 0 <= 20 * trailing_mean (map f df) 20 i.
Proof.
  intros H Hi. unfold trailing_mean.
  change (inject_Z (Z.of_nat 20)) with 20.
  assert (E : 20 * (trailing_sum (map f df) 20 i / 20)
              == trailing_sum (map f df) 20 i) by field.
  rewrite E. unfold trailing_sum. apply Qsum_ge_member.
  - apply Forall_map, Forall_forall. intros j _. now apply nth_nonneg.
  - apply (in_map (fun j => nth j (map f df) 0)). apply in_seq. lia.
Qed.

(** The volume ratio of a row of a history without negative volumes. *)
Lemma vol_ratio_at_most_20 df i row :
  Forall (fun b => 0 <= volume b) df ->
  nth_error (calculate_indicators df) i = Some row ->
  exists b, vol_ratio row = Ret (Fin b) /\ b <= 20.
Proof.
  intros Hv H.
  destruct (row_averages df i row H) as (_ & _ & _ & E20).
  destruct (row_bar df i row H) as (_ & Evol).
  unfold vol_ratio, ngt. rewrite E20, Evol. unfold window_value.
  destruct (S i <? 20)%nat eqn:Ew.
  - exists 0. split; [reflexivity | discriminate].
  - apply Nat.ltb_ge in Ew. unfold fin.
    set (v := nth i (map volume df) 0).
    set (tm := trailing_mean (map volume df) 20 i).
    assert (Hv0 : 0 <= v) by (now apply nth_nonneg).
    assert (Hle : v <= 20 * tm)
      by (apply (trailing_mean_ge_last volume); trivial; lia).
    destruct (lit 0 <? Fin (Qred tm))%num eqn:Epos.
    + apply nlt_spec in Epos. apply fin_lt_inv_r in Epos.
      change (inject_Z 0) with 0 in Epos.
      assert (Zy : Qzero (Qred tm) = false).
      { apply Qzero_neq. rewrite Qred_correct. intros X.
        rewrite X in Epos. exact (Qlt_irrefl _ Epos). }
      unfold pydiv. rewrite Zy. unfold ndiv. rewrite Zy. unfold fin.
      eexists. split; [reflexivity |].
      rewrite !Qred_correct. apply Qle_shift_div_r; trivial.
    + exists 0. split; [reflexivity | discriminate].
Qed.

(** X13.  On a history without negative volumes the volume ratio is at
    most 20, the window of the average holding the current bar; so the
    score of every record the analyzer returns is an integer between 62
    and 285 and the reported volume ratio is at most 20. *)
Theorem score_range (yf_download : source) ticker df r :
  yf_download ticker = Ret df ->
  Forall (fun b => 0 <= volume b) df ->
  analyze_stock yf_download ticker = Some r ->
  (exists z, score r =n= lit z /\ (62 <= z <= 285)%Z)
  /\ (res_vol_ratio r <=? lit 20)%num = true.
Proof.
  intros Hsrc Hv H.
  destruct (analyze_stock_some_inv _ _ _ _ Hsrc H) as (_ & Ec & _ & He).
  apply evaluate_some in He.
  destruct He as (vr & Hvr & Hr & _ & ->).
  destruct (vol_ratio_at_most_20 df _ _ Hv Ec) as (b & Eb & Hb).
  assert (vr = Fin b) by congruence. subst vr.
  unfold rules in Hr. rewrite !andb_true_iff in Hr.
  destruct Hr as ((_ & Hrsi) & Hvol).
  apply rsi_check_spec in Hrsi. destruct Hrsi as (H50 & H85).
  unfold vol_check, ngt in Hvol. apply nlt_spec in Hvol.
  destruct (band_finite _ _ _ H50 H85) as (a & Ea & Ha50 & Ha85).
  change (inject_Z 50) with 50 in Ha50. change (inject_Z 85) with 85 in Ha85.
  inversion Hvol as [x y Hb12 | | |]; subst.
  cbn [score res_vol_ratio expected_result]. rewrite Ea. split.
  - set (x := Qred (a + Qred (b * inject_Z 10))).
    assert (Ex : (Fin a + Fin b * lit 10)%num = Fin x) by reflexivity.
    rewrite Ex.
    assert (Ey : x == a + b * 10).
    { unfold x. rewrite Qred_correct.
      apply Qplus_comp; [reflexivity | apply Qred_correct]. }
    destruct (round_0_integer x) as (Hround & _).
    exists (round_half_even x). split; trivial. split.
    + apply round_half_even_ge. rewrite Ey.
      change (inject_Z 62) with 62. lra.
    + apply round_half_even_le. rewrite Ey.
      change (inject_Z 285) with 285. lra.
  - destruct (round_2_bounds b 120 2000) as (q & -> & _ & Hq).
    { change (inject_Z 120) with 120. lra. }
    { change (inject_Z 2000) with 2000. lra. }
    unfold lit, nle. apply negb_true_iff, Qltb_ge.
    apply Qle_trans with (inject_Z 2000 / 100); [exact Hq | discriminate].
Qed.

(** The score of the breakout history: 107. *)
Lemma score_range_witness :
  exists r z,
    analyze_stock (const_source breakout_200) "NVDA" = Some r
    /\ score r =n= lit z /\ (62 <= z <= 285)%Z.
Proof.
  assert (E : exists r,
             analyze_stock (const_source breakout_200) "NVDA" = Some r)
    by (eexists; vm_compute; reflexivity).
  destruct E as (r & Hr).
  assert (Hv : Forall (fun b => 0 <= volume b) breakout_200).
  { apply Forall_forall. intros b Hb. unfold breakout_200, flat in Hb.
    apply in_app_or in Hb. destruct Hb as [Hb | Hb].
    - apply repeat_spec in Hb. subst b. discriminate.
    - destruct Hb as [<- | [<- | []]]; discriminate. }
  destruct (score_range (const_source breakout_200) "NVDA" breakout_200 r
              eq_refl Hv Hr) as ((z & Hz & Hb) & _).
  exists r, z. repeat split; trivial; apply Hb.
Defined.

(** ** Faults inside the analyzer *)



(** ** The output of the scan *)

Lemma collect_perm l1 l2 :
  Permutation l1 l2 -> Permutation (collect l1) (collect l2).
Proof.
  induction 1 as [| [x|] l1 l2 _ IH | [x|] [y|] l | l1 l2 l3 _ IH1 _ IH2];
    simpl; auto.
  - apply perm_swap.
  - now apply perm_trans with (collect l2).
Qed.

Lemma In_collect_iff r l : In r (collect l) <-> In (Some r) l.
Proof.
  split; [apply In_collect |].
  induction l as [|[x|] l IH]; simpl; trivial.
  - intros [E | H]; [left; congruence | right; auto].
  - intros [E | H]; [discriminate | auto].
Qed.

(** X15.  The scan returns one record for each symbol of the universe on
    which the analyzer returns a result, and nothing else: every record
    of the output is the analyzer's result for its own symbol, a symbol
    of the universe; the symbols of the output are a rearrangement of the
    passing symbols; and the output is no longer than the universe. *)
Theorem scan_output_symbols (yf_download : source) universe :
  (forall r, In r (run_scan_on yf_download universe)
             <-> exists t, In t universe
                           /\ analyze_stock yf_download t = Some r)
  /\ (forall r, In r (run_scan_on yf_download universe) ->
        In (symbol r) universe
        /\ analyze_stock yf_download (symbol r) = Some r)
  /\ Permutation (map symbol (run_scan_on yf_download universe))
       (filter (passes yf_download) universe)
  /\ (length (run_scan_on yf_download universe) <= length universe)%nat.
Proof.
  assert (Hin : forall r,
             In r (run_scan_on yf_download universe)
             <-> exists t, In t universe
                           /\ analyze_stock yf_download t = Some r).
  { intros r. unfold run_scan_on. split.
    - intros H. apply (Permutation_in _ (Permutation_sym (sort_desc_perm _)))
        in H.
      apply In_collect_iff, in_map_iff in H.
      destruct H as (t & Ht & Hu). now exists t.
    - intros (t & Hu & Ht).
      apply (Permutation_in _ (sort_desc_perm _)).
      apply In_collect_iff, in_map_iff. now exists t. }
  assert (Hp : Permutation (map symbol (run_scan_on yf_download universe))
                 (filter (passes yf_download) universe)).
  { rewrite <- collect_universe_order. apply Permutation_map.
    apply Permutation_sym, sort_desc_perm. }
  split; [exact Hin | split; [| split; [exact Hp |]]].
  - intros r H. apply Hin in H. destruct H as (t & Hu & Ht).
    rewrite (analyze_stock_symbol yf_download t r Ht). tauto.
  - rewrite <- (length_map symbol), (Permutation_length Hp).
    apply filter_length_le.
Qed.

(** The ranked sample universe: three symbols out of four pass. *)
Lemma scan_output_symbols_witness :
  Permutation
    (map symbol
       (run_scan_on ranked_source ["AAA"; "BBB"; "CCC"; "DDD"]%string))
    ["AAA"; "BBB"; "CCC"]%string.
Proof.
  assert (E : filter (passes ranked_source)
                ["AAA"; "BBB"; "CCC"; "DDD"]%string
              = ["AAA"; "BBB"; "CCC"]%string) by (vm_compute; reflexivity).
  rewrite <- E.
  apply (scan_output_symbols ranked_source
           ["AAA"; "BBB"; "CCC"; "DDD"]%string).
Defined.

Lemma nle_antisym x y :
  (x <=? y)%num = true -> (y <=? x)%num = true -> neqb x y = true.
Proof.
  destruct x as [|[]|a], y as [|[]|b]; simpl;
    try (intros; (reflexivity || discriminate)).
  rewrite !negb_true_iff, !Qltb_ge. intros H1 H2.
  apply Qeq_bool_iff. now apply Qle_antisym.
Qed.

(** Two rankings of the same records are the same list when records with
    equal scores are equal. *)
Lemma sorted_perm_eq l1 :
  forall l2,
    StronglySorted score_ge l1 -> StronglySorted score_ge l2 ->
    Permutation l1 l2 ->
    (forall a b, In a l1 -> In b l1 ->
                 neqb (score a) (score b) = true -> a = b) ->
    l1 = l2.
Proof.
  induction l1 as [|x l1 IH]; intros l2 S1 S2 P Hd.
  - now apply Permutation_nil in P.
  - destruct l2 as [|y l2].
    { apply Permutation_sym, Permutation_nil in P. discriminate. }
    assert (E : x = y).
    { assert (Hx : In x (y :: l2))
        by (apply (Permutation_in _ P); now left).
      assert (Hy : In y (x :: l1))
        by (apply (Permutation_in _ (Permutation_sym P)); now left).
      destruct Hx as [Hx | Hx]; [now symmetry |].
      destruct Hy as [Hy | Hy]; [trivial |].
      apply StronglySorted_inv in S1, S2.
      destruct S1 as (_ & F1). destruct S2 as (_ & F2).
      rewrite Forall_forall in F1, F2.
      apply Hd; [now left | now right |].
      apply nle_antisym.
      - exact (F2 x Hx).
      - exact (F1 y Hy). }
    subst y. f_equal. apply IH.
    + now apply StronglySorted_inv in S1.
    + now apply StronglySorted_inv in S2.
    + now apply Permutation_cons_inv in P.
    + intros a b Ha Hb. apply Hd; now right.
Qed.

(** X16.  The scan of a rearranged universe returns the same records;
    and when no two different records of the output have the same score,
    it returns them in the same order: without ties the ranking does not
    depend on the order of the universe. *)
Theorem scan_order_independent (yf_download : source) u1 u2 :
  Permutation u1 u2 ->
  Permutation (run_scan_on yf_download u1) (run_scan_on yf_download u2)
  /\ ((forall a b,
         In a (run_scan_on yf_download u1) ->
         In b (run_scan_on yf_download u1) ->
         neqb (score a) (score b) = true -> a = b) ->
      run_scan_on yf_download u1 = run_scan_on yf_download u2).
Proof.
  intros P.
  assert (Pc : Permutation
                 (collect (map (analyze_stock yf_download) u1))
                 (collect (map (analyze_stock yf_download) u2)))
    by (apply collect_perm, Permutation_map, P).
  assert (Po : Permutation (run_scan_on yf_download u1)
                 (run_scan_on yf_download u2)).
  { unfold run_scan_on.
    apply perm_trans with (collect (map (analyze_stock yf_download) u1)).
    - apply Permutation_sym, sort_desc_perm.
    - apply perm_trans with (collect (map (analyze_stock yf_download) u2));
        trivial. apply sort_desc_perm. }
  split; trivial. intros Hd. apply sorted_perm_eq; trivial;
    unfold run_scan_on; apply sort_desc_sorted, collect_scored.
Qed.

(** Two symbols with different scores, in both orders. *)
Lemma scan_order_independent_witness :
  run_scan_on ranked_source ["AAA"; "BBB"]%string
  = run_scan_on ranked_source ["BBB"; "AAA"]%string.
Proof.
  apply (scan_order_independent ranked_source
           ["AAA"; "BBB"]%string ["BBB"; "AAA"]%string).
  - apply perm_swap.
  - assert (E : map (fun r => (symbol r, score r))
                  (run_scan_on ranked_source ["AAA"; "BBB"]%string)
                = [("BBB", Fin 115); ("AAA", Fin 107)]%string)
      by (vm_compute; reflexivity).
    destruct (run_scan_on ranked_source ["AAA"; "BBB"]%string)
      as [|r1 [|r2 [|r3 l]]]; try discriminate.
    injection E as E1 E1' E2 E2'.
    intros a b [<- | [<- | []]] [<- | [<- | []]]; trivial;
      rewrite E1', E2'; intros X; vm_compute in X; discriminate.
Defined.

(** ** The oscillator at its ends *)

Lemma cell_avg_finite df i :
  (13 <= i)%nat -> (i < length df)%nat ->
  nonneg (cell (avg_gain df) i) /\ nonneg (cell (avg_loss df) i).
Proof.
  intros H13 Hi. unfold avg_gain, avg_loss.
  rewrite !cell_rolling_mean_at by (rewrite ?length_gain, ?length_loss; lia).
  split; apply mean_nonneg, Forall_window.
  - apply gain_nonneg.
  - apply loss_nonneg.
Qed.

Lemma cell_avg_absent df i :
  (i < 13)%nat ->
  cell (avg_gain df) i = NaN /\ cell (avg_loss df) i = NaN.
Proof.
  intros H13.
  assert (X : forall s, cell (rolling_mean 14 s) i = NaN).
  { intros s. destruct (Nat.lt_ge_cases i (length s)) as [Hi | Hi].
    - assert (E : nth_error (rolling_mean 14 s) i = Some NaN).
      { unfold rolling_mean. rewrite nth_error_map, nth_error_seq.
        apply Nat.ltb_lt in Hi. rewrite Hi. simpl.
        assert (L : (S i <? 14)%nat = true) by (apply Nat.ltb_lt; lia).
        now rewrite L. }
      unfold cell. now rewrite (nth_error_nth _ _ NaN E).
    - apply cell_out_of_range. now rewrite length_rolling_mean. }
  unfold avg_gain, avg_loss. split; apply X.
Qed.

(** X17.  The ends of the oscillator.  At a row of the frame it is absent
    exactly during the first 13 rows or when the trailing average gain
    and the trailing average loss are both zero; it is 100 exactly when
    the average loss is zero and the average gain is not; and it is 0
    exactly when the average gain is zero and the average loss is not. *)
Theorem oscillator_ends df i row :
  nth_error (calculate_indicators df) i = Some row ->
  (RSI row = NaN
   <-> (i < 13)%nat
       \/ (zero (cell (avg_gain df) i) /\ zero (cell (avg_loss df) i)))
  /\ (RSI row =n= lit 100
      <-> zero (cell (avg_loss df) i) /\ lit 0 <n cell (avg_gain df) i)
  /\ (RSI row =n= lit 0
      <-> zero (cell (avg_gain df) i) /\ lit 0 <n cell (avg_loss df) i).
Proof.
  intros H. rewrite (RSI_row df i row H), cell_RSI.
  apply calculate_indicators_row_inv in H. destruct H as (Hi & _).
  destruct (Nat.lt_ge_cases i 13) as [H13 | H13].
  - destruct (cell_avg_absent df i H13) as (-> & ->).
    rewrite rsi_of_nan_l. unfold zero. simpl.
    split; [tauto | split; tauto].
  - destruct (cell_avg_finite df i H13 Hi)
      as ((a & -> & Ha) & (b & -> & Hb)).
    unfold zero, lit. cbn [num_eq]. change (inject_Z 0) with 0.
    change (inject_Z 100) with 100.
    destruct (Qle_lt_or_eq _ _ Hb) as [Hb' | Hb'].
    + destruct (rsi_closed_form a b Ha Hb') as (r & -> & Er).
      assert (Hs : 0 < a + b) by lra.
      assert (Em : r * (a + b) == 100 * a) by (rewrite Er; field; lra).
      cbn [num_eq]. change (inject_Z 100) with 100.
      change (inject_Z 0) with 0.
      split; [| split]; split.
      * discriminate.
      * intros [X | (_ & X)]; exfalso; [lia | lra].
      * intros X. rewrite X in Em. exfalso. lra.
      * intros (X & _). exfalso. lra.
      * intros X. rewrite X in Em. split; [lra | now constructor].
      * intros (X & _). rewrite X in Em.
        assert (Y : r * b == 0)
          by (transitivity (r * (0 + b)); [ring | rewrite Em; ring]).
        apply Qmult_integral in Y. destruct Y as [Y | Y]; [trivial |].
        exfalso. lra.
    + assert (Zb : zero (Fin b)) by (unfold zero; simpl; now symmetry).
      destruct (Qle_lt_or_eq _ _ Ha) as [Ha' | Ha'].
      * rewrite (rsi_zero_loss (Fin a) (Fin b) Zb)
          by (constructor; exact Ha').
        unfold lit. cbn [num_eq].
        split; [| split]; split.
        -- discriminate.
        -- intros [X | (X & _)]; exfalso; [lia | lra].
        -- intros _. split; [now symmetry | now constructor].
        -- intros _. reflexivity.
        -- intros X. vm_compute in X. discriminate.
        -- intros (X & _). exfalso. lra.
      * assert (Za : zero (Fin a)) by (unfold zero; simpl; now symmetry).
        rewrite (rsi_zero_zero _ _ Zb Za). cbn [num_eq].
        split; [| split]; split.
        -- intros _. right. split; now symmetry.
        -- reflexivity.
        -- intros [].
        -- intros (_ & X). inversion X; subst. lra.
        -- intros [].
        -- intros (_ & X). inversion X; subst. lra.
Qed.

(** The flat history: both averages are zero at the last row. *)
Lemma oscillator_ends_witness :
  exists row,
    nth_error (calculate_indicators flat_220) 219 = Some row
    /\ RSI row = NaN.
Proof.
  assert (E : exists r, nth_error (calculate_indicators flat_220) 219
                        = Some r) by (eexists; vm_compute; reflexivity).
  destruct E as (row & H). exists row. split; [exact H |].
  apply (oscillator_ends flat_220 219 row H). right.
  split; unfold zero; vm_compute; reflexivity.
Defined.

Lemma nth_loss df j :
  (S j < length df)%nat ->
  nth (S j) (loss df) NaN
  = if Qltb (Qred (nth (S j) (map close df) 0 - nth j (map close df) 0))
         (inject_Z 0)
    then fin (- Qred (nth (S j) (map close df) 0 - nth j (map close df) 0))
    else fin (- inject_Z 0).
Proof.
  intros Hj.
  set (d := Qred (nth (S j) (map close df) 0 - nth j (map close df) 0)).
  assert (Ed : nth (S j) (delta df) NaN = Fin d).
  { unfold delta, close_column. rewrite nth_diff by (now rewrite length_map).
    reflexivity. }
  unfold loss.
  rewrite (nth_indep _ NaN (nopp NaN))
    by (unfold where_; now rewrite !length_map, length_delta).
  rewrite map_nth, nth_where by (now rewrite length_delta).
  rewrite Ed. unfold negative. simpl nlt.
  now destruct (Qltb d (inject_Z 0)).
Qed.

Lemma loss_zero_at df j :
  (S j < length df)%nat ->
  nth j (map close df) 0 <= nth (S j) (map close df) 0 ->
  zero (nth (S j) (loss df) NaN).
Proof.
  intros Hj Hle. rewrite nth_loss by trivial.
  assert (E : Qltb (Qred (nth (S j) (map close df) 0
                          - nth j (map close df) 0)) (inject_Z 0) = false).
  { apply Qltb_ge. rewrite Qred_correct. change (inject_Z 0) with 0. lra. }
  rewrite E. reflexivity.
Qed.

Lemma avg_loss_zero df i :
  (14 <= i)%nat -> (i < length df)%nat ->
  (forall j, (i - 14 <= j < i)%nat ->
             nth j (map close df) 0 <= nth (S j) (map close df) 0) ->
  zero (cell (avg_loss df) i).
Proof.
  intros H14 Hi Hup. unfold avg_loss.
  rewrite cell_rolling_mean_at by (rewrite ?length_loss; lia).
  rewrite (window_at_seq NaN) by (rewrite ?length_loss; lia).
  apply mean_zero, Forall_map, Forall_forall.
  intros j Hj. apply in_seq in Hj.
  destruct j as [|j]; [lia |].
  apply loss_zero_at; [lia |]. apply Hup. lia.
Qed.

(** X18.  A history whose close did not fall on any of its last 14 bars
    yields no signal: with no loss in the window the oscillator is 100 or
    absent, outside the strength band, whatever the other rules say. *)
Theorem never_falling_absent (yf_download : source) ticker df :
  yf_download ticker = Ret df ->
  (forall j, (length df - 15 <= j < length df - 1)%nat ->
             nth j (map close df) 0 <= nth (S j) (map close df) 0) ->
  analyze_stock yf_download ticker = None.
Proof.
  intros Hsrc Hup.
  destruct (analyze_stock yf_download ticker) as [r|] eqn:H; trivial.
  exfalso.
  destruct (analyze_stock_some_inv _ _ _ _ Hsrc H) as (Hlen & Ec & _ & He).
  destruct (proj1 (evaluate_some_iff _ _ _) (ex_intro _ r He))
    as ((_ & _ & (_ & H85) & _) & _).
  rewrite (RSI_row _ _ _ Ec), cell_RSI in H85.
  assert (Zl : zero (cell (avg_loss df) (length df - 1))).
  { apply avg_loss_zero; try lia.
    intros j Hj. apply Hup. lia. }
  destruct (cell_avg_finite df (length df - 1)) as (Hg & _); try lia.
  destruct Hg as (a & Ea & Ha). rewrite Ea in H85.
  destruct (Qle_lt_or_eq _ _ Ha) as [Ha' | Ha'].
  - rewrite (rsi_zero_loss _ _ Zl) in H85 by (constructor; exact Ha').
    apply nlt_spec in H85. discriminate.
  - assert (Za : zero (Fin a)) by (unfold zero; simpl; now symmetry).
    rewrite (rsi_zero_zero _ _ Zl Za) in H85. inversion H85.
Qed.

(** A jump after a flat stretch: the oscillator is 100. *)
Lemma never_falling_absent_witness :
  analyze_stock (const_source jump_200) "NVDA" = None
  /\ RSI (row_at jump_200 199) = lit 100.
Proof.
  split; [| vm_compute; reflexivity].
  apply (never_falling_absent (const_source jump_200) "NVDA" jump_200).
  - reflexivity.
  - assert (L : length jump_200 = 200%nat) by (vm_compute; reflexivity).
    rewrite L. intros j Hj.
    assert (C : forall k, (k < 14)%nat ->
              nth (185 + k) (map close jump_200) 0
              <= nth (S (185 + k)) (map close jump_200) 0).
    { intros k Hk. do 14 (destruct k as [|k]; [vm_compute; discriminate |]).
      lia. }
    replace j with (185 + (j - 185))%nat by lia. apply C. lia.
Defined.
